(** * pudb_and_jam: breakpoint synchronisation between Vim and pudb

    A shallow embedding of [pythonx/pudb_and_jam.py].  The script is glue
    code between two external collaborators:

    - the pudb breakpoint store ([load_breakpoints], [save_breakpoints]),
      modelled by its interface: a sequence of (file, line, condition)
      records that [save_breakpoints] replaces as a whole;
    - the Vim host ([vim.command], [vim.eval], [vim.vars],
      [vim.current.window.cursor]), modelled as a record of editor state
      plus a chronological trace of the calls made to it.  Commands are
      taken at the level of the call that the script's template string
      denotes (sign_unplace, sign_place, getbufline, input, ...); Vim's
      own quoting rules for the text put into those templates are not
      part of the model.

    A string holds a text as its bytes in UTF-8, which is how Vim keeps
    it under its default [encoding]; where Python looks at characters
    (the test of [populateList] for a blank line) the bytes are decoded
    into code points first.

    Python exceptions are modelled by an error monad over the world: a
    raised exception leaves the effects made so far in place, as in Python.
    Python dicts keep insertion order and [dict.values()] lists values in
    that order, so a dict is an association list with pairwise distinct
    keys. *)

From stdpp Require Import base strings list gmap pretty.

Open Scope Z_scope.

(** ** Breakpoints and store records *)

(** The identity key of a breakpoint: (file name, line number). *)
Definition Key : Type := string * Z.

(** [bdb.Breakpoint], restricted to the attributes that the store keeps
    and the script reads or writes ([temporary], [funcname], [enabled] and
    the hit counters are never looked at).  [cond = None] is Python's
    [None]. *)
Record Breakpoint : Type := mkBreakpoint {
  file : string;
  line : Z;
  cond : option string
}.

#[global] Instance Breakpoint_eq_dec : EqDecision Breakpoint.
Proof. solve_decision. Defined.

(** A persisted record of the store, the argument tuple from which
    [starmap] builds a breakpoint. *)
Definition StoreRecord : Type := string * Z * option string.

(** The constructor call of [starmap(Breakpoint, records)] on one record. *)
Definition Breakpoint_of_record (r : StoreRecord) : Breakpoint :=
  let '(f, l, c) := r in mkBreakpoint f l c.

(** What the store keeps of a breakpoint handed to [save_breakpoints]. *)
Definition record_of_Breakpoint (bp : Breakpoint) : StoreRecord :=
  (file bp, line bp, cond bp).

(** [Breakpoint] applied to the unpacked [bp_key]: a fresh breakpoint,
    every optional argument at its default, so without condition. *)
Definition Breakpoint_at (bp_key : Key) : Breakpoint :=
  mkBreakpoint bp_key.1 bp_key.2 None.

(** The key [(bp.file, bp.line)]. *)
Definition key_of (bp : Breakpoint) : Key := (file bp, line bp).

(** [bp.cond = c] on a breakpoint object. *)
Definition set_cond (c : option string) (bp : Breakpoint) : Breakpoint :=
  mkBreakpoint (file bp) (line bp) c.

(** ** Python dicts, insertion ordered *)

Module dict.

Abbreviation t := (list (Key * Breakpoint)).

Definition empty : t := [].

(** [k in d] *)
Definition mem (k : Key) (d : t) : bool := bool_decide (k ∈ d.*1).

(** [d[k]], [None] standing for [KeyError]. *)
Fixpoint get (k : Key) (d : t) : option Breakpoint :=
  match d with
  | [] => None
  | (k', v) :: d' => if decide (k' = k) then Some v else get k d'
  end.

(** [d[k] = v]: an existing key keeps its position and takes the new
    value, a new key goes to the end. *)
Fixpoint set (k : Key) (v : Breakpoint) (d : t) : t :=
  match d with
  | [] => [(k, v)]
  | (k', v') :: d' =>
      if decide (k' = k) then (k', v) :: d' else (k', v') :: set k v d'
  end.

(** [d.pop(k)] for a key that is present (the only use in the script);
    on an absent key Python raises and this leaves [d] as it is. *)
Fixpoint pop (k : Key) (d : t) : t :=
  match d with
  | [] => []
  | (k', v') :: d' => if decide (k' = k) then d' else (k', v') :: pop k d'
  end.

(** [d.values()] *)
Definition values (d : t) : list Breakpoint := d.*2.

(** [{(bp.file, bp.line): bp for bp in bps}]: the comprehension assigns
    the entries one after the other. *)
Definition of_breakpoints (bps : list Breakpoint) : t :=
  foldl (λ d bp, set (key_of bp) bp d) empty bps.

End dict.

(** ** The editor and the world *)

(** A sign placed by [sign_place]. *)
Record Sign : Type := mkSign {
  sign_group : string;
  sign_name : string;
  sign_file : string;
  sign_lnum : Z;
  sign_priority : Z
}.

Record Editor : Type := mkEditor {
  (** [expand("%:p")]: absolute path of the current buffer *)
  current_file : string;
  (** [vim.current.window.cursor]: (row, column) *)
  cursor : Z * Z;
  (** the loaded buffers and their lines, by file name *)
  buffers : gmap string (list string);
  (** [g:pudb_sign_group], when defined *)
  pudb_sign_group : option string;
  (** [g:pudb_priority], when defined *)
  pudb_priority : option Z;
  (** the signs currently placed *)
  signs : list Sign;
  (** what the user will answer at the coming [input()] prompts; an
      exhausted list stands for a cancelled prompt, which yields the
      empty string *)
  typed : list string
}.

(** The calls made to the collaborators, in the order they are made. *)
Inductive Event : Type :=
  | EvLoad
  | EvSave (recs : list StoreRecord)
  | EvSignUnplace (group : string)
  | EvSignPlace (group f : string) (lnum prio : Z) (placed : bool)
  | EvEcho (msg : string)
  | EvEchohl (hl : string)
  | EvInputsave
  | EvInput (prompt text answer : string)
  | EvInputrestore
  | EvEchomsg (msg : string)
  | EvGetbufline (f : string) (lnum : Z)
  | EvListCommand (list_command : string) (qflist : list string)
  | EvCheckcache (filename : string).

#[global] Instance Event_eq_dec : EqDecision Event.
Proof. solve_decision. Defined.

Record World : Type := mkWorld {
  store : list StoreRecord;
  vim : Editor;
  trace : list Event
}.

Definition log (e : Event) (w : World) : World :=
  mkWorld (store w) (vim w) (trace w ++ [e]).

Definition with_store (recs : list StoreRecord) (w : World) : World :=
  mkWorld recs (vim w) (trace w).

Definition set_signs (sg : list Sign) (v : Editor) : Editor :=
  mkEditor (current_file v) (cursor v) (buffers v) (pudb_sign_group v)
    (pudb_priority v) sg (typed v).

Definition set_typed (ty : list string) (v : Editor) : Editor :=
  mkEditor (current_file v) (cursor v) (buffers v) (pudb_sign_group v)
    (pudb_priority v) (signs v) ty.

Definition with_signs (sg : list Sign) (w : World) : World :=
  mkWorld (store w) (set_signs sg (vim w)) (trace w).

Definition with_typed (ty : list string) (w : World) : World :=
  mkWorld (store w) (set_typed ty (vim w)) (trace w).

(** ** Exceptions and the monad of the script *)

Inductive exn : Type := vim_error | KeyError | IndexError.

#[global] Instance exn_eq_dec : EqDecision exn.
Proof. solve_decision. Defined.

(** [LookupError] is the common base class of [KeyError] and [IndexError]. *)
Definition is_LookupError (e : exn) : bool :=
  match e with
  | KeyError | IndexError => true
  | vim_error => false
  end.

(** [vim.error] *)
Definition is_vim_error (e : exn) : bool :=
  match e with
  | vim_error => true
  | KeyError | IndexError => false
  end.

Inductive result (A : Type) : Type :=
  | Return (a : A)
  | Raise (e : exn).
Arguments Return {A} a.
Arguments Raise {A} e.

Definition M (A : Type) : Type := World → result A * World.

#[global] Instance M_ret : MRet M := λ A a w, (Return a, w).

#[global] Instance M_bind : MBind M := λ A B f m w,
  match m w with
  | (Return a, w') => f a w'
  | (Raise e, w') => (Raise e, w')
  end.

(** [raise e] *)
Definition raise {A} (e : exn) : M A := λ w, (Raise e, w).

(** [try: body / except <handles>: handler] *)
Definition try_except {A} (body : M A) (handles : exn → bool)
    (handler : M A) : M A := λ w,
  match body w with
  | (Return a, w') => (Return a, w')
  | (Raise e, w') => if handles e then handler w' else (Raise e, w')
  end.

(** [for x in xs: body] *)
Fixpoint for_each {A} (xs : list A) (body : A → M unit) : M unit :=
  match xs with
  | [] => mret tt
  | x :: xs' => body x ;; for_each xs' body
  end.

(** The world an action leaves, and what it returns or raises. *)
Definition exec {A} (m : M A) (w : World) : World := (m w).2.
Definition outcome {A} (m : M A) (w : World) : result A := (m w).1.

(** ** The collaborators' interfaces

    None of the code below is part of the repository.  Each definition
    says what the script relies on, as the spec (its sections 4.1, 6 and
    7) and the comments of the script describe it. *)

(** Modelled from the spec: [pudb.settings.load_breakpoints], whose code is
    not part of this repository; it yields the persisted records in the
    store's own order. *)
Definition load_breakpoints : M (list StoreRecord) := λ w,
  (Return (store w), log EvLoad w).

(** Modelled from the spec: [pudb.settings.save_breakpoints], whose code is
    not part of this repository; it replaces the whole content of the
    store by the breakpoints it is given. *)
Definition save_breakpoints (bps : list Breakpoint) : M unit := λ w,
  let recs := record_of_Breakpoint <$> bps in
  (Return tt, log (EvSave recs) (with_store recs w)).

(** Modelled from the spec: Vim's [sign_unplace], called as
    [vim.command('call sign_unplace(g:pudb_sign_group)')]; it removes
    every sign of the group, and an undefined variable is a Vim error. *)
Definition vim_command_sign_unplace : M unit := λ w,
  match pudb_sign_group (vim w) with
  | None => (Raise vim_error, w)
  | Some g =>
      (Return tt,
       log (EvSignUnplace g)
         (with_signs (filter (λ s, sign_group s ≠ g) (signs (vim w))) w))
  end.

(** Modelled from the spec: [vim.vars['pudb_priority']], a dict lookup
    that raises [KeyError] on an undefined variable. *)
Definition vim_vars_pudb_priority : M Z := λ w,
  match pudb_priority (vim w) with
  | None => (Raise KeyError, w)
  | Some p => (Return p, w)
  end.

(** Modelled from the spec: [vim.eval('g:pudb_sign_group')], a Vim error
    on an undefined variable. *)
Definition vim_eval_pudb_sign_group : M string := λ w,
  match pudb_sign_group (vim w) with
  | None => (Raise vim_error, w)
  | Some g => (Return g, w)
  end.

(** Modelled from the spec: Vim's [sign_place], called as
    [vim.eval('sign_place(0, group, "PudbBreakPoint", file, opts)')] with
    [opts = {"lnum": lnum, "priority": prio}]; it places the sign, or
    fails with a Vim error when no buffer is loaded for the file. *)
Definition vim_eval_sign_place (group f : string) (lnum prio : Z) : M unit :=
  λ w,
  match buffers (vim w) !! f with
  | None => (Raise vim_error, log (EvSignPlace group f lnum prio false) w)
  | Some _ =>
      (Return tt,
       log (EvSignPlace group f lnum prio true)
         (with_signs
            (signs (vim w) ++ [mkSign group "PudbBreakPoint" f lnum prio]) w))
  end.

(** [vim.eval('expand("%:p")')] *)
Definition vim_eval_expand : M string := λ w,
  (Return (current_file (vim w)), w).

(** [vim.current.window.cursor] *)
Definition vim_current_window_cursor : M (Z * Z) := λ w,
  (Return (cursor (vim w)), w).

(** [vim.command('echo "Current condition: ..."')] *)
Definition vim_command_echo (msg : string) : M unit := λ w,
  (Return tt, log (EvEcho msg) w).

(** [vim.command('echohl ...')] *)
Definition vim_command_echohl (hl : string) : M unit := λ w,
  (Return tt, log (EvEchohl hl) w).

(** [vim.eval('inputsave()')] *)
Definition vim_eval_inputsave : M unit := λ w,
  (Return tt, log EvInputsave w).

(** [vim.eval('inputrestore()')] *)
Definition vim_eval_inputrestore : M unit := λ w,
  (Return tt, log EvInputrestore w).

(** Modelled from the spec: Vim's [input], called as
    [vim.eval('input(prompt, text)')]; it blocks until the user has
    answered and returns the answer, always a string. *)
Definition vim_eval_input (prompt text : string) : M string := λ w,
  match typed (vim w) with
  | [] => (Return "", log (EvInput prompt text "") w)
  | answer :: rest =>
      (Return answer, log (EvInput prompt text answer) (with_typed rest w))
  end.

(** [vim.command('echomsg "..."')] *)
Definition vim_command_echomsg (msg : string) : M unit := λ w,
  (Return tt, log (EvEchomsg msg) w).

(** Modelled from the spec: what Vim's [getbufline(file, lnum)] evaluates
    to, the one-element list of that line (lines count from 1), or the
    empty list when the buffer is not loaded or has no such line. *)
Definition getbufline (ed : Editor) (f : string) (lnum : Z) : list string :=
  match buffers ed !! f with
  | None => []
  | Some lines =>
      if decide (1 ≤ lnum) then
        match lines !! Z.to_nat (lnum - 1) with
        | Some l => [l]
        | None => []
        end
      else []
  end.

(** [vim.eval('getbufline("file", lnum)')] *)
Definition vim_eval_getbufline (f : string) (lnum : Z) : M (list string) :=
  λ w, (Return (getbufline (vim w) f lnum), log (EvGetbufline f lnum) w).

(** [vim.command('%s %s' % (list_command, qflist))] *)
Definition vim_command_list (list_command : string) (qflist : list string)
  : M unit := λ w,
  (Return tt, log (EvListCommand list_command qflist) w).

(** [linecache.checkcache(filename)] *)
Definition checkcache (filename : string) : M unit := λ w,
  (Return tt, log (EvCheckcache filename) w).

(** ** Python strings *)

(** The bytes of a text.  A string holds a text in UTF-8, the way Vim
    keeps it with its default [encoding] and the way a string literal of
    this file is read. *)
Definition bytes (s : string) : list N :=
  Ascii.N_of_ascii <$> String.list_ascii_of_string s.

(** A continuation byte of UTF-8. *)
Definition continuation (b : N) : bool := ((128 <=? b) && (b <=? 191))%N.

(** The well-formed sequences of two, three and four bytes. *)
Definition two_bytes (b1 b2 : N) : bool :=
  ((194 <=? b1) && (b1 <=? 223))%N && continuation b2.

Definition three_bytes (b1 b2 b3 : N) : bool :=
  (((b1 =? 224) && (160 <=? b2) && (b2 <=? 191)
    || (225 <=? b1) && (b1 <=? 236) && continuation b2
    || (b1 =? 237) && (128 <=? b2) && (b2 <=? 159)
    || (238 <=? b1) && (b1 <=? 239) && continuation b2)
   && continuation b3)%N.

Definition four_bytes (b1 b2 b3 b4 : N) : bool :=
  (((b1 =? 240) && (144 <=? b2) && (b2 <=? 191)
    || (241 <=? b1) && (b1 <=? 243) && continuation b2
    || (b1 =? 244) && (128 <=? b2) && (b2 <=? 143))
   && continuation b3 && continuation b4)%N.

(** The code point that the [surrogateescape] handler puts for a byte that
    is part of no well-formed sequence. *)
Definition escaped (b : N) : N := (56320 + b)%N.

(** The code points of a text, as Python sees it: the UTF-8 decoding that
    Vim's interface does on what [vim.eval] returns. *)
Fixpoint decode (bs : list N) : list N :=
  match bs with
  | [] => []
  | b1 :: r1 =>
      if (b1 <? 128)%N then b1 :: decode r1 else
      match r1 with
      | [] => escaped b1 :: decode r1
      | b2 :: r2 =>
          if two_bytes b1 b2
          then ((b1 - 192) * 64 + (b2 - 128))%N :: decode r2 else
          match r2 with
          | [] => escaped b1 :: decode r1
          | b3 :: r3 =>
              if three_bytes b1 b2 b3
              then ((b1 - 224) * 4096 + (b2 - 128) * 64 + (b3 - 128))%N
                   :: decode r3 else
              match r3 with
              | [] => escaped b1 :: decode r1
              | b4 :: r4 =>
                  if four_bytes b1 b2 b3 b4
                  then ((b1 - 240) * 262144 + (b2 - 128) * 4096 +
                        (b3 - 128) * 64 + (b4 - 128))%N :: decode r4
                  else escaped b1 :: decode r1
              end
          end
      end
  end.

(** The Python [str] of a text of the editor. *)
Definition code_points (s : string) : list N := decode (bytes s).

(** [str.isspace] of Python 3 on one character, which is also what
    [str.strip()] removes: the characters U+0009 to U+000D, U+001C to
    U+001F, U+0020, U+0085, U+00A0, U+1680, U+2000 to U+200A, U+2028,
    U+2029, U+202F, U+205F and U+3000. *)
Definition isspace (cp : N) : bool :=
  ((9 <=? cp) && (cp <=? 13) || (28 <=? cp) && (cp <=? 32)
   || (cp =? 133) || (cp =? 160) || (cp =? 5760)
   || (8192 <=? cp) && (cp <=? 8202)
   || (cp =? 8232) || (cp =? 8233) || (cp =? 8239) || (cp =? 8287)
   || (cp =? 12288))%N.

(** [s.lstrip()] and [s.rstrip()] *)
Fixpoint lstrip (s : list N) : list N :=
  match s with
  | [] => []
  | c :: s' => if isspace c then lstrip s' else s
  end.

Fixpoint rstrip (s : list N) : list N :=
  match s with
  | [] => []
  | c :: s' =>
      match rstrip s' with
      | [] => if isspace c then [] else [c]
      | r => c :: r
      end
  end.

(** [s.strip()] *)
Definition strip (s : list N) : list N := rstrip (lstrip s).

(** [xs[0]] *)
Definition index0 {A} (xs : list A) : M A :=
  match xs with
  | [] => raise IndexError
  | x :: _ => mret x
  end.

(** [for x in xs: acc = body(acc, x)], a loop that builds a value. *)
Fixpoint for_fold {A S} (xs : list A) (body : S → A → M S) (acc : S) : M S :=
  match xs with
  | [] => mret acc
  | x :: xs' => acc' ← body acc x; for_fold xs' body acc'
  end.

(** [d[k]] as a statement: [KeyError] on an absent key. *)
Definition getitem (k : Key) (d : dict.t) : M Breakpoint :=
  match dict.get k d with
  | Some v => mret v
  | None => raise KeyError
  end.

(** ** The script *)

(** [breakpoints()]: the saved breakpoints.  The store is read when the
    function is called; [starmap] then builds one breakpoint per record.
    [LOAD_ARGS] only adapts the call to the version of pudb. *)
Definition breakpoints : M (list Breakpoint) :=
  recs ← load_breakpoints;
  mret (Breakpoint_of_record <$> recs).

(** [breakpoint_dict()] *)
Definition breakpoint_dict : M dict.t :=
  bps ← breakpoints;
  mret (dict.of_breakpoints bps).

(** The format expression of [breakpoint_strings], on one breakpoint:
    ['{file}:{line:d}:{cond}'] with [cond=bp.cond if bp.cond else ' '].
    Python takes [None] and the empty string as false. *)
Definition breakpoint_string (bp : Breakpoint) : string :=
  file bp +:+ ":" +:+ pretty (line bp) +:+ ":" +:+
  match cond bp with
  | Some c => if decide (c = "") then " " else c
  | None => " "
  end.

(** [breakpoint_strings()] *)
Definition breakpoint_strings : M (list string) :=
  bps ← breakpoints;
  mret (breakpoint_string <$> bps).

(** The body of the loop of [update] for one breakpoint: the [try]
    statement, whose handler is [continue]. *)
Definition place_sign (bp : Breakpoint) : M unit :=
  try_except
    (prio ← vim_vars_pudb_priority;
     group ← vim_eval_pudb_sign_group;
     vim_eval_sign_place group (file bp) (line bp) prio)
    is_vim_error
    (mret tt).

(** [update()] *)
Definition update : M unit :=
  vim_command_sign_unplace;;
  bps ← breakpoints;
  for_each bps place_sign.

(** [current_position()] *)
Definition current_position : M Key :=
  filename ← vim_eval_expand;
  '(row, _) ← vim_current_window_cursor;
  mret (filename, row).

(** [toggle()] *)
Definition toggle : M unit :=
  bps ← breakpoint_dict;
  bp_key ← current_position;
  let bps :=
    if dict.mem bp_key bps then dict.pop bp_key bps
    else dict.set bp_key (Breakpoint_at bp_key) bps in
  save_breakpoints (dict.values bps);;
  update.

(** [edit()], first part: the dict, the key and the breakpoint under the
    cursor, created when there is none. *)
Definition edit_lookup : M (dict.t * Key * Breakpoint) :=
  bps ← breakpoint_dict;
  bp_key ← current_position;
  let bps :=
    if negb (dict.mem bp_key bps)
    then dict.set bp_key (Breakpoint_at bp_key) bps
    else bps in
  bp ← getitem bp_key bps;
  mret (bps, bp_key, bp).

(** [edit()], second part: the dialogue with the user.  [bp] is the object
    held by [bps] at [bp_key], so the assignment to [bp.cond] shows in
    the dict. *)
Definition edit_prompt (bps : dict.t) (bp_key : Key) (bp : Breakpoint)
  : M dict.t :=
  let old_cond := match cond bp with None => "" | Some c => c end in
  vim_command_echo ("Current condition: " +:+ old_cond);;
  vim_command_echohl "Question";;
  vim_eval_inputsave;;
  answer ← vim_eval_input "New Condition: " old_cond;
  let bps := dict.set bp_key (set_cond (Some answer) bp) bps in
  vim_eval_inputrestore;;
  vim_command_echohl "None";;
  mret bps.

(** [edit()] *)
Definition edit : M unit :=
  '(bps, bp_key, bp) ← edit_lookup;
  bps ← edit_prompt bps bp_key bp;
  save_breakpoints (dict.values bps);;
  update.

(** [clearAll()] *)
Definition clearAll : M unit :=
  save_breakpoints [];;
  update.

(** [list_breakpoints()] *)
Definition list_breakpoints : M unit :=
  update;;
  vim_command_echomsg "Listing all pudb breakpoints:";;
  bp_strings ← breakpoint_strings;
  for_each bp_strings vim_command_echomsg.

(** The text that [populateList] shows for one breakpoint: its [try]
    statement, whose local variable [line] is [text] here. *)
Definition populate_line (bp : Breakpoint) : M string :=
  try_except
    (lines ← vim_eval_getbufline (file bp) (line bp);
     text ← index0 lines;
     if decide (strip (code_points text) = [])
     then mret "<blank line>" else mret text)
    is_LookupError
    (mret "<buffer not loaded>").

(** [populateList(list_command)] *)
Definition populateList (list_command : string) : M unit :=
  update;;
  bps ← breakpoints;
  qflist ← for_fold bps (λ qflist bp,
    text ← populate_line bp;
    mret (qflist ++ [String.concat ":" [file bp; pretty (line bp); text]]))
    [];
  vim_command_list list_command qflist.

(** [quickfixList()] *)
Definition quickfixList : M unit := populateList "cgetexpr".

(** [locationList()] *)
Definition locationList : M unit := populateList "lgetexpr".

(** [clearLineCache()] *)
Definition clearLineCache : M unit :=
  filename ← vim_eval_expand;
  checkcache filename;;
  update.

(** ** Vocabulary of the statements *)

(** The entries of a dict built from breakpoints are filed under the
    breakpoint's own key. *)
Definition well_keyed (d : dict.t) : Prop := Forall (λ kv, kv.1 = key_of kv.2) d.

(** The cursor position as a key, and the breakpoints that a load yields. *)
Definition position (w : World) : Key :=
  (current_file (vim w), (cursor (vim w)).1).

Definition saved (w : World) : list Breakpoint :=
  Breakpoint_of_record <$> store w.

(** The sign and the trace entry of one round of the loop of [update]. *)
Definition sign_of (g : string) (p : Z) (bp : Breakpoint) : Sign :=
  mkSign g "PudbBreakPoint" (file bp) (line bp) p.

Definition has_buffer (v : Editor) (bp : Breakpoint) : Prop :=
  is_Some (buffers v !! file bp).

#[global] Instance has_buffer_dec v bp : Decision (has_buffer v bp).
Proof. unfold has_buffer. apply _. Defined.

Definition place_event (v : Editor) (g : string) (p : Z) (bp : Breakpoint)
  : Event :=
  EvSignPlace g (file bp) (line bp) p (bool_decide (has_buffer v bp)).

(** The events that [update] can add to the trace. *)
Definition update_event (e : Event) : Prop :=
  match e with
  | EvSignUnplace _ | EvSignPlace _ _ _ _ _ | EvLoad => True
  | _ => False
  end.

(** The dict that [toggle] saves. *)
Definition toggled (k : Key) (d : dict.t) : dict.t :=
  if dict.mem k d then dict.pop k d
  else dict.set k (Breakpoint_at k) d.

(** What a breakpoint becomes when its key is toggled off and on again. *)
Definition retoggled (k : Key) (bp : Breakpoint) : Breakpoint :=
  if decide (key_of bp = k) then Breakpoint_at k else bp.

(** The dict of [edit] once the key under the cursor is sure to be there. *)
Definition ensured (k : Key) (d : dict.t) : dict.t :=
  if negb (dict.mem k d) then dict.set k (Breakpoint_at k) d else d.

(** The breakpoint that [edit] works on. *)
Definition edited_breakpoint (k : Key) (d : dict.t) : Breakpoint :=
  default (Breakpoint_at k) (dict.get k d).

(** The dict that [edit] saves when the user answers [ans]. *)
Definition edited (k : Key) (ans : string) (d : dict.t) : dict.t :=
  dict.set k (set_cond (Some ans) (edited_breakpoint k d)) (ensured k d).

(** The answer that the user gives at the next prompt. *)
Definition answer (w : World) : string :=
  match typed (vim w) with
  | [] => ""
  | a :: _ => a
  end.

(** The text offered for editing at the prompt. *)
Definition old_cond (bp : Breakpoint) : string :=
  match cond bp with
  | None => ""
  | Some c => c
  end.

(** The dialogue of [edit], as it shows in the trace. *)
Definition prompt_events (text ans : string) : list Event :=
  [EvEcho ("Current condition: " +:+ text); EvEchohl "Question"; EvInputsave;
   EvInput "New Condition: " text ans; EvInputrestore; EvEchohl "None"].

(** The text that [populateList] shows for a breakpoint. *)
Definition line_text (v : Editor) (bp : Breakpoint) : string :=
  match getbufline v (file bp) (line bp) with
  | [] => "<buffer not loaded>"
  | text :: _ =>
      if decide (strip (code_points text) = []) then "<blank line>" else text
  end.

(** The entry of the list for a breakpoint. *)
Definition qf_entry (v : Editor) (bp : Breakpoint) : string :=
  String.concat ":" [file bp; pretty (line bp); line_text v bp].

Definition getbufline_event (bp : Breakpoint) : Event :=
  EvGetbufline (file bp) (line bp).

(** The source line of a breakpoint in the editor's buffers, when the
    buffer is loaded and has that line (lines count from 1). *)
Definition source_line (v : Editor) (bp : Breakpoint) : option string :=
  match buffers v !! file bp with
  | None => None
  | Some lines =>
      if decide (1 ≤ line bp) then lines !! Z.to_nat (line bp - 1) else None
  end.

(** The whitespace characters of Python 3, each by its bytes in UTF-8:
    U+0009 to U+000D, U+001C to U+001F, U+0020, U+0085, U+00A0, U+1680,
    U+2000 to U+200A, U+2028, U+2029, U+202F, U+205F and U+3000. *)
Definition whitespace_characters : list (list N) :=
  [[9]; [10]; [11]; [12]; [13]; [28]; [29]; [30]; [31]; [32];
   [194; 133]; [194; 160]; [225; 154; 128];
   [226; 128; 128]; [226; 128; 129]; [226; 128; 130]; [226; 128; 131];
   [226; 128; 132]; [226; 128; 133]; [226; 128; 134]; [226; 128; 135];
   [226; 128; 136]; [226; 128; 137]; [226; 128; 138];
   [226; 128; 168]; [226; 128; 169]; [226; 128; 175]; [226; 129; 159];
   [227; 128; 128]]%N.

(** A sequence of bytes that is whitespace characters one after the
    other, and nothing else. *)
Inductive blank_bytes : list N → Prop :=
  | blank_nil : blank_bytes []
  | blank_app w bs :
      w ∈ whitespace_characters → blank_bytes bs → blank_bytes (w ++ bs).

(** A text that is empty or made of whitespace only. *)
Definition blank (s : string) : Prop := blank_bytes (bytes s).

(** The text with the given bytes. *)
Definition text_of_bytes (bs : list N) : string :=
  String.string_of_list_ascii (Ascii.ascii_of_N <$> bs).

(** A breakpoint without condition in the sense of the data model: no
    condition, or the empty string for one. *)
Definition unconditional (bp : Breakpoint) : Prop :=
  cond bp = None ∨ cond bp = Some "".

(** What [edit] makes of a breakpoint when the cursor is at [k] and the
    user answers [ans]. *)
Definition reconditioned (k : Key) (ans : string) (bp : Breakpoint)
  : Breakpoint :=
  if decide (key_of bp = k) then set_cond (Some ans) bp else bp.

(** Two worlds that differ at most in the signs placed and in the trace:
    same store, same file and cursor, same buffers, same configuration,
    same pending answers. *)
Definition only_signs_differ (w w' : World) : Prop :=
  store w' = store w ∧ set_signs [] (vim w') = set_signs [] (vim w).

(** ** Sample worlds *)

(** An editor showing [/a.py], the cursor on line [row]; the user is about
    to type [x>0] at the next prompt. *)
Definition sample_editor (row : Z) : Editor :=
  mkEditor "/a.py" (row, 0)
    {[ "/a.py" := ["import os"; ""; "   "; "x = 1"] ]}
    (Some "pudb_sign_group") (Some 100) [] ["x>0"].

Definition sample_store : list StoreRecord :=
  [("/a.py", 10, None); ("/a.py", 20, Some "x>0")].

(** The store of the scenarios, the cursor on the breakpoint without
    condition, on the one with a condition, and on a line without
    breakpoint. *)
Definition sample_world : World := mkWorld sample_store (sample_editor 10) [].

Definition conditional_world : World :=
  mkWorld sample_store (sample_editor 20) [].

Definition fresh_world : World := mkWorld sample_store (sample_editor 4) [].

(** The user leaves the prompt empty. *)
Definition silent_world : World :=
  mkWorld sample_store (set_typed [""] (sample_editor 20)) [].

(** Breakpoints in a file that has no buffer, on a blank line and on a
    line of code; a sign of an earlier round is still placed. *)
Definition listing_world : World :=
  mkWorld [("/a.py", 10, None); ("/b.py", 3, None); ("/b.py", 4, Some "x>0")]
    (mkEditor "/b.py" (1, 0)
       {[ "/b.py" := ["import os"; ""; "   "; "x = 1"] ]}
       (Some "pudb_sign_group") (Some 100)
       [mkSign "pudb_sign_group" "PudbBreakPoint" "/b.py" 1 100] [])
    [].

(** A store with two records for line 20, the cursor on line 10. *)
Definition duplicate_world : World :=
  mkWorld [("/a.py", 20, None); ("/a.py", 10, None); ("/a.py", 20, Some "x>0")]
    (sample_editor 10) [].

(** The store of the scenarios in an editor where [g:pudb_sign_group] and
    [g:pudb_priority] are not defined, and in one where only the priority
    is missing. *)
Definition unconfigured_world : World :=
  mkWorld sample_store
    (mkEditor "/a.py" (10, 0) {[ "/a.py" := ["import os"] ]} None None
       [mkSign "pudb_sign_group" "PudbBreakPoint" "/a.py" 1 100] ["x>0"])
    [].

Definition no_priority_world : World :=
  mkWorld sample_store
    (mkEditor "/a.py" (10, 0) {[ "/a.py" := ["import os"] ]}
       (Some "pudb_sign_group") None
       [mkSign "pudb_sign_group" "PudbBreakPoint" "/a.py" 1 100] ["x>0"])
    [].

(** Three breakpoints in a buffer whose first line is a no-break space
    (U+00A0), whose second line is an ideographic space (U+3000), a space
    and a tab, and whose third line is the letter x and a no-break
    space. *)
Definition unicode_world : World :=
  mkWorld [("/b.py", 1, None); ("/b.py", 2, None); ("/b.py", 3, None)]
    (mkEditor "/b.py" (1, 0)
       {[ "/b.py" := [text_of_bytes [194; 160]%N;
                      text_of_bytes [227; 128; 128; 32; 9]%N;
                      text_of_bytes [120; 194; 160]%N] ]}
       (Some "pudb_sign_group") (Some 100) [] [])
    [].

(** ** Tactics *)

(** Unfolding the monad and the collaborators' calls. *)
Ltac unfold_monad :=
  unfold mbind, M_bind, mret, M_ret, raise, try_except, exec, outcome in *.

Ltac unfold_vim :=
  unfold load_breakpoints, save_breakpoints, vim_command_sign_unplace,
    vim_vars_pudb_priority, vim_eval_pudb_sign_group, vim_eval_sign_place,
    vim_eval_expand, vim_current_window_cursor, vim_command_echo,
    vim_command_echohl, vim_eval_inputsave, vim_eval_inputrestore,
    vim_eval_input, vim_command_echomsg, vim_eval_getbufline,
    vim_command_list, checkcache, log, with_store, with_signs, with_typed
    in *.

(** Boolean tests on numbers as propositions, and membership in a list
    that is written out. *)
Ltac bool_to_prop H :=
  repeat rewrite ?orb_true_iff, ?andb_true_iff, ?N.leb_le, ?N.eqb_eq,
    ?N.ltb_lt in H.

Ltac in_list := apply (bool_decide_unpack _); vm_compute; exact I.

(** ** Facts about dicts *)

Section dict_facts.
  Implicit Types (k : Key) (v : Breakpoint) (d : dict.t).

Lemma dict_mem_spec k d : dict.mem k d = true ↔ k ∈ d.*1.
Proof. unfold dict.mem. by rewrite bool_decide_eq_true. Qed.

Lemma dict_set_fresh k v d : k ∉ d.*1 → dict.set k v d = d ++ [(k, v)].
Proof.
  induction d as [|[k' v'] d IH]; csimpl; intros Hk; [done|].
  apply not_elem_of_cons in Hk as [Hne Hk].
  destruct (decide (k' = k)) as [->|_]; [done|]. by rewrite IH.
Qed.

Lemma dict_set_keys k v d :
  (dict.set k v d).*1 = if dict.mem k d then d.*1 else d.*1 ++ [k].
Proof.
  induction d as [|[k' v'] d IH]; csimpl; [done|].
  unfold dict.mem in *. csimpl.
  destruct (decide (k' = k)) as [->|Hne]; csimpl.
  - rewrite bool_decide_eq_true_2; [done | apply list_elem_of_here].
  - rewrite IH. destruct (decide (k ∈ d.*1)) as [Hin|Hin].
    + rewrite !bool_decide_eq_true_2; [done | by apply list_elem_of_further | done].
    + rewrite !bool_decide_eq_false_2; [done | | done].
      intros [?|?]%elem_of_cons; congruence.
Qed.

Lemma dict_set_NoDup k v d : NoDup d.*1 → NoDup (dict.set k v d).*1.
Proof.
  intros Hd. rewrite dict_set_keys. destruct (dict.mem k d) eqn:Hm; [done|].
  apply NoDup_app. split_and!; [done | | apply NoDup_singleton].
  intros x Hx ->%list_elem_of_singleton.
  apply dict_mem_spec in Hx. congruence.
Qed.

Lemma dict_get_set_eq k v d : dict.get k (dict.set k v d) = Some v.
Proof.
  induction d as [|[k' v'] d IH]; csimpl.
  - by rewrite decide_True.
  - destruct (decide (k' = k)) as [->|Hne]; csimpl.
    + by rewrite decide_True.
    + by rewrite decide_False.
Qed.

Lemma dict_get_set_ne k k' v d :
  k ≠ k' → dict.get k' (dict.set k v d) = dict.get k' d.
Proof.
  intros Hne. induction d as [|[k0 v0] d IH]; csimpl.
  - by rewrite decide_False.
  - destruct (decide (k0 = k)) as [->|Hne0]; csimpl.
    + by rewrite !decide_False.
    + by rewrite IH.
Qed.

Lemma dict_get_None k d : dict.get k d = None ↔ k ∉ d.*1.
Proof.
  induction d as [|[k' v'] d IH]; csimpl.
  - split; [intros _; apply not_elem_of_nil | done].
  - destruct (decide (k' = k)) as [->|Hne].
    + split; [done | intros []; apply list_elem_of_here].
    + rewrite IH, not_elem_of_cons. split; [by intros ? | by intros [_ ?]].
Qed.

Lemma dict_pop_fresh k d : k ∉ d.*1 → dict.pop k d = d.
Proof.
  induction d as [|[k' v'] d IH]; csimpl; intros Hk; [done|].
  apply not_elem_of_cons in Hk as [Hne Hk].
  destruct (decide (k' = k)) as [->|_]; [done|]. by rewrite IH.
Qed.

(** Popping a key of a dict drops its entry and nothing else. *)
Lemma dict_pop_filter k d :
  NoDup d.*1 → dict.pop k d = filter (λ kv, kv.1 ≠ k) d.
Proof.
  induction d as [|[k' v'] d IH]; csimpl; intros Hd; [done|].
  apply NoDup_cons in Hd as [Hk' Hd].
  destruct (decide (k' = k)) as [->|Hne].
  - rewrite filter_cons_False by (csimpl; intros H; by apply H).
    rewrite <- IH by done. by rewrite dict_pop_fresh.
  - rewrite filter_cons_True by done. by rewrite IH.
Qed.

Lemma dict_pop_set_fresh k v d :
  k ∉ d.*1 → dict.pop k (dict.set k v d) = d.
Proof.
  induction d as [|[k' v'] d IH]; csimpl; intros Hk.
  - by rewrite decide_True.
  - apply not_elem_of_cons in Hk as [Hne Hk].
    rewrite decide_False by done. csimpl.
    rewrite decide_False by done. by rewrite IH.
Qed.

Lemma dict_set_well_keyed k v d :
  k = key_of v → well_keyed d → well_keyed (dict.set k v d).
Proof.
  intros Hk. unfold well_keyed.
  induction d as [|[k' v'] d IH]; csimpl; intros Hd.
  - by constructor.
  - apply Forall_cons in Hd as [Hk' Hd].
    destruct (decide (k' = k)) as [->|Hne].
    + by constructor.
    + constructor; [done | by apply IH].
Qed.

Lemma well_keyed_values d : well_keyed d → key_of <$> dict.values d = d.*1.
Proof.
  unfold well_keyed, dict.values. induction 1 as [|[k v] d Hk _ IH]; csimpl; [done|].
  csimpl in Hk. by rewrite IH, Hk.
Qed.

Lemma well_keyed_sublist d d' : d' ⊆ d → well_keyed d → well_keyed d'.
Proof.
  unfold well_keyed. rewrite !Forall_forall. intros Hsub Hd x Hx. by apply Hd, Hsub.
Qed.

Lemma dict_pop_subseteq k d : dict.pop k d ⊆ d.
Proof.
  induction d as [|[k' v'] d IH]; csimpl; [done|].
  destruct (decide (k' = k)).
  - intros x Hx. by apply list_elem_of_further.
  - intros x [->|Hx]%elem_of_cons; [apply list_elem_of_here|].
    by apply list_elem_of_further, IH.
Qed.

Lemma dict_pop_NoDup k d : NoDup d.*1 → NoDup (dict.pop k d).*1.
Proof.
  induction d as [|[k' v'] d IH]; csimpl; intros Hd; [done|].
  apply NoDup_cons in Hd as [Hk' Hd].
  destruct (decide (k' = k)); [done|]. csimpl.
  apply NoDup_cons. split; [|by apply IH].
  intros Hin. apply Hk'.
  apply list_elem_of_fmap in Hin as [x [-> Hx]].
  apply list_elem_of_fmap. exists x. split; [done|]. by apply (dict_pop_subseteq k).
Qed.

End dict_facts.

Section of_breakpoints_facts.
  Implicit Types (k : Key) (bp : Breakpoint) (bps : list Breakpoint)
    (d : dict.t).

Let assign (d : dict.t) bp := dict.set (key_of bp) bp d.

Lemma foldl_set_NoDup bps d :
  NoDup d.*1 → NoDup (foldl assign d bps).*1.
Proof.
  revert d. induction bps as [|bp bps IH]; intros d Hd; csimpl; [done|].
  apply IH. by apply dict_set_NoDup.
Qed.

Lemma foldl_set_well_keyed bps d :
  well_keyed d → well_keyed (foldl assign d bps).
Proof.
  revert d. induction bps as [|bp bps IH]; intros d Hd; csimpl; [done|].
  apply IH. by apply dict_set_well_keyed.
Qed.

Lemma foldl_set_get k bps d :
  dict.get k (foldl assign d bps) =
  match last (filter (λ bp, key_of bp = k) bps) with
  | Some bp => Some bp
  | None => dict.get k d
  end.
Proof.
  revert d. induction bps as [|bp bps IH]; intros d; csimpl; [done|].
  rewrite IH. destruct (decide (key_of bp = k)) as [Hk|Hk].
  - rewrite filter_cons_True by done. rewrite last_cons.
    destruct (last _); [done|]. unfold assign. rewrite Hk.
    apply dict_get_set_eq.
  - rewrite filter_cons_False by done.
    destruct (last _); [done|]. by apply dict_get_set_ne.
Qed.

Lemma foldl_set_distinct bps d :
  NoDup (d.*1 ++ (key_of <$> bps)) →
  foldl assign d bps = d ++ ((λ bp, (key_of bp, bp)) <$> bps).
Proof.
  revert d. induction bps as [|bp bps IH]; intros d Hd; csimpl.
  - by rewrite app_nil_r.
  - unfold assign at 2. rewrite dict_set_fresh.
    + rewrite IH; [by rewrite <- app_assoc|].
      rewrite fmap_app. csimpl. by rewrite <- app_assoc.
    + apply NoDup_app in Hd as (_ & Hd & _). intros Hin.
      apply (Hd _ Hin). apply list_elem_of_here.
Qed.

Lemma of_breakpoints_NoDup bps : NoDup (dict.of_breakpoints bps).*1.
Proof. apply foldl_set_NoDup. constructor. Qed.

Lemma of_breakpoints_well_keyed bps : well_keyed (dict.of_breakpoints bps).
Proof. apply foldl_set_well_keyed. constructor. Qed.

Lemma of_breakpoints_get k bps :
  dict.get k (dict.of_breakpoints bps) =
  last (filter (λ bp, key_of bp = k) bps).
Proof.
  etransitivity; [apply foldl_set_get|]. by destruct (last _).
Qed.

(** On breakpoints with pairwise distinct keys the dict lists them all, in
    their order. *)
Lemma of_breakpoints_distinct bps :
  NoDup (key_of <$> bps) →
  dict.of_breakpoints bps = (λ bp, (key_of bp, bp)) <$> bps.
Proof. intros Hd. by apply (foldl_set_distinct bps dict.empty). Qed.

Lemma of_breakpoints_values bps :
  NoDup (key_of <$> bps) → dict.values (dict.of_breakpoints bps) = bps.
Proof.
  intros Hd. rewrite of_breakpoints_distinct by done.
  unfold dict.values. rewrite <- list_fmap_compose.
  rewrite <- (list_fmap_id bps) at 2. by apply list_fmap_ext.
Qed.

Lemma of_breakpoints_keys bps :
  NoDup (key_of <$> bps) → (dict.of_breakpoints bps).*1 = key_of <$> bps.
Proof.
  intros Hd. rewrite of_breakpoints_distinct by done.
  rewrite <- list_fmap_compose. by apply list_fmap_ext.
Qed.

End of_breakpoints_facts.

(** ** Facts about strings *)

Section strings.
  Implicit Types (b cp : N) (bs l : list N).
  Local Open Scope N_scope.

Lemma lstrip_nil l : lstrip l = [] ↔ Forall (λ c, isspace c = true) l.
Proof.
  induction l as [|c l IH]; cbn.
  - split; [constructor | done].
  - destruct (isspace c) eqn:Hc.
    + rewrite IH. split; [by constructor | by inversion 1].
    + split; [done | inversion 1; congruence].
Qed.

Lemma rstrip_nil l : rstrip l = [] ↔ Forall (λ c, isspace c = true) l.
Proof.
  induction l as [|c l IH]; cbn.
  - split; [constructor | done].
  - destruct (rstrip l) eqn:Hr.
    + destruct (isspace c) eqn:Hc.
      * split; [intros _; constructor; [done | by apply IH] | done].
      * split; [done | inversion 1; congruence].
    + split; [done|]. inversion 1 as [|?? _ Hs]. by apply IH in Hs.
Qed.

Lemma lstrip_spaces l :
  Forall (λ c, isspace c = true) (lstrip l) → lstrip l = [].
Proof.
  induction l as [|c l IH]; cbn; [done|].
  destruct (isspace c) eqn:Hc; [done|]. inversion 1; congruence.
Qed.

Lemma strip_nil l : strip l = [] ↔ Forall (λ c, isspace c = true) l.
Proof.
  unfold strip. rewrite rstrip_nil. split.
  - intros H. by apply lstrip_nil, lstrip_spaces.
  - intros H. apply lstrip_nil in H. rewrite H. constructor.
Qed.

Lemma space_one b :
  (b <? 128) = true → isspace b = true → [b] ∈ whitespace_characters.
Proof.
  unfold isspace. intros Hb Hs. bool_to_prop Hb. bool_to_prop Hs.
  assert (b = 9 ∨ b = 10 ∨ b = 11 ∨ b = 12 ∨ b = 13 ∨
          b = 28 ∨ b = 29 ∨ b = 30 ∨ b = 31 ∨ b = 32) as Hcases by lia.
  clear Hb Hs. destruct_or!; subst b; in_list.
Qed.

Lemma space_two b1 b2 :
  two_bytes b1 b2 = true →
  isspace ((b1 - 192) * 64 + (b2 - 128)) = true →
  [b1; b2] ∈ whitespace_characters.
Proof.
  unfold two_bytes, continuation, isspace. intros Hb Hs.
  bool_to_prop Hb. bool_to_prop Hs.
  assert (b1 = 194 ∧ (b2 = 133 ∨ b2 = 160)) as [-> Hcases] by lia.
  clear Hb Hs. destruct_or!; subst b2; in_list.
Qed.

Lemma space_three b1 b2 b3 :
  three_bytes b1 b2 b3 = true →
  isspace ((b1 - 224) * 4096 + (b2 - 128) * 64 + (b3 - 128)) = true →
  [b1; b2; b3] ∈ whitespace_characters.
Proof.
  unfold three_bytes, continuation, isspace. intros Hb Hs.
  bool_to_prop Hb. bool_to_prop Hs.
  assert (224 ≤ b1 ≤ 239 ∧ 128 ≤ b2 ≤ 191 ∧ 128 ≤ b3 ≤ 191 ∧
          (b1 = 224 → 160 ≤ b2)) as Hrange by lia.
  clear Hb. destruct_or! Hs.
  - exfalso. lia.
  - exfalso. lia.
  - exfalso. lia.
  - exfalso. lia.
  - assert (b1 = 225 ∧ b2 = 154 ∧ b3 = 128) as (-> & -> & ->) by lia.
    in_list.
  - assert (b1 = 226 ∧ b2 = 128 ∧
            (b3 = 128 ∨ b3 = 129 ∨ b3 = 130 ∨ b3 = 131 ∨ b3 = 132 ∨
             b3 = 133 ∨ b3 = 134 ∨ b3 = 135 ∨ b3 = 136 ∨ b3 = 137 ∨
             b3 = 138)) as (-> & -> & Hcases) by lia.
    clear Hs Hrange. destruct_or!; subst b3; in_list.
  - assert (b1 = 226 ∧ b2 = 128 ∧ b3 = 168) as (-> & -> & ->) by lia.
    in_list.
  - assert (b1 = 226 ∧ b2 = 128 ∧ b3 = 169) as (-> & -> & ->) by lia.
    in_list.
  - assert (b1 = 226 ∧ b2 = 128 ∧ b3 = 175) as (-> & -> & ->) by lia.
    in_list.
  - assert (b1 = 226 ∧ b2 = 129 ∧ b3 = 159) as (-> & -> & ->) by lia.
    in_list.
  - assert (b1 = 227 ∧ b2 = 128 ∧ b3 = 128) as (-> & -> & ->) by lia.
    in_list.
Qed.

Lemma space_four b1 b2 b3 b4 :
  four_bytes b1 b2 b3 b4 = true →
  isspace ((b1 - 240) * 262144 + (b2 - 128) * 4096 + (b3 - 128) * 64 +
           (b4 - 128)) = false.
Proof.
  unfold four_bytes, continuation. intros Hb. bool_to_prop Hb.
  apply not_true_is_false. unfold isspace. intros Hs. bool_to_prop Hs. lia.
Qed.

Lemma space_escaped b : isspace (escaped b) = false.
Proof.
  apply not_true_is_false. unfold isspace, escaped. intros Hs.
  bool_to_prop Hs. lia.
Qed.

Lemma decode_whitespace w bs :
  w ∈ whitespace_characters →
  ∃ cp, decode (w ++ bs) = cp :: decode bs ∧ isspace cp = true.
Proof.
  unfold whitespace_characters. intros Hw.
  repeat (apply elem_of_cons in Hw as [->|Hw];
          [eexists; split; reflexivity|]).
  by apply elem_of_nil in Hw.
Qed.

Lemma blank_decode bs :
  blank_bytes bs → Forall (λ c, isspace c = true) (decode bs).
Proof.
  induction 1 as [|w bs Hw _ IH]; [constructor|].
  destruct (decode_whitespace w bs Hw) as (cp & -> & Hcp). by constructor.
Qed.

Lemma blank_one b bs :
  [b] ∈ whitespace_characters → blank_bytes bs → blank_bytes (b :: bs).
Proof. intros Hw Hbs. by apply (blank_app [b]). Qed.

Lemma blank_two b1 b2 bs :
  [b1; b2] ∈ whitespace_characters → blank_bytes bs →
  blank_bytes (b1 :: b2 :: bs).
Proof. intros Hw Hbs. by apply (blank_app [b1; b2]). Qed.

Lemma blank_three b1 b2 b3 bs :
  [b1; b2; b3] ∈ whitespace_characters → blank_bytes bs →
  blank_bytes (b1 :: b2 :: b3 :: bs).
Proof. intros Hw Hbs. by apply (blank_app [b1; b2; b3]). Qed.

Lemma decode_blank (n : nat) bs :
  (length bs ≤ n)%nat →
  Forall (λ c, isspace c = true) (decode bs) → blank_bytes bs.
Proof.
  revert bs. induction n as [|n IH]; intros bs Hn.
  { destruct bs; [constructor | cbn in Hn; lia]. }
  destruct bs as [|b1 r1]; [constructor|]. cbn in Hn. cbn [decode].
  assert (∀ l, Forall (λ c, isspace c = true) (escaped b1 :: l) →
               blank_bytes (b1 :: r1)) as Hesc.
  { intros l Hf. apply Forall_cons in Hf as [Hf _].
    by rewrite space_escaped in Hf. }
  destruct (b1 <? 128) eqn:H1.
  { intros [Hs Hf]%Forall_cons. apply blank_one; [by apply space_one|].
    apply IH; [lia | done]. }
  destruct r1 as [|b2 r2]; [apply Hesc|]. cbn in Hn.
  destruct (two_bytes b1 b2) eqn:H2.
  { intros [Hs Hf]%Forall_cons. apply blank_two; [by apply space_two|].
    apply IH; [lia | done]. }
  destruct r2 as [|b3 r3]; [apply Hesc|]. cbn in Hn.
  destruct (three_bytes b1 b2 b3) eqn:H3.
  { intros [Hs Hf]%Forall_cons. apply blank_three; [by apply space_three|].
    apply IH; [lia | done]. }
  destruct r3 as [|b4 r4]; [apply Hesc|].
  destruct (four_bytes b1 b2 b3 b4) eqn:H4; [|apply Hesc].
  intros [Hs _]%Forall_cons. by rewrite space_four in Hs.
Qed.

(** [s.strip() == ''] holds of the blank texts and of no other. *)
Lemma strip_empty s : strip (code_points s) = [] ↔ blank s.
Proof.
  rewrite strip_nil. unfold code_points, blank. split.
  - by apply (decode_blank (length (bytes s))).
  - apply blank_decode.
Qed.

End strings.

(** ** Running the script *)

Section runs.
  Implicit Types (w : World) (bp : Breakpoint) (bps : list Breakpoint).

Lemma breakpoints_run w : breakpoints w = (Return (saved w), log EvLoad w).
Proof. done. Qed.

Lemma breakpoint_dict_run w :
  breakpoint_dict w = (Return (dict.of_breakpoints (saved w)), log EvLoad w).
Proof. done. Qed.

Lemma current_position_run w : current_position w = (Return (position w), w).
Proof.
  unfold current_position, position. unfold_monad. unfold_vim.
  by destruct (cursor (vim w)).
Qed.

(** Whatever happens in the loop, it touches the signs and the trace only. *)
Lemma place_signs_frame bps w :
  ∃ r sg evs,
    for_each bps place_sign w =
    (r, mkWorld (store w) (set_signs sg (vim w)) (trace w ++ evs)) ∧
    Forall update_event evs.
Proof.
  revert w. induction bps as [|bp bps IH]; intros [st v tr].
  - exists (Return tt), (signs v), []. cbn. rewrite app_nil_r.
    split; [by destruct v | constructor].
  - cbn [for_each]. unfold_monad. unfold place_sign at 1. unfold_monad. unfold_vim.
    cbn. destruct (pudb_priority v) as [p|] eqn:Hp; cbn.
    2:{ exists (Raise KeyError), (signs v), []. rewrite app_nil_r.
        split; [by destruct v | constructor]. }
    destruct (pudb_sign_group v) as [g|] eqn:Hg; cbn.
    2:{ match goal with |- context [for_each bps place_sign ?w'] =>
          destruct (IH w') as (r & sg & evs & -> & Hevs) end.
        eauto. }
    destruct (buffers v !! file bp) eqn:Hb; cbn.
    + match goal with |- context [for_each bps place_sign ?w'] =>
        destruct (IH w') as (r & sg & evs & -> & Hevs) end.
      cbn. exists r, sg, (EvSignPlace g (file bp) (line bp) p true :: evs).
      rewrite <- app_assoc. split; [done | by constructor].
    + match goal with |- context [for_each bps place_sign ?w'] =>
        destruct (IH w') as (r & sg & evs & -> & Hevs) end.
      cbn. exists r, sg, (EvSignPlace g (file bp) (line bp) p false :: evs).
      rewrite <- app_assoc. split; [done | by constructor].
Qed.

(** With both configuration variables defined the loop goes through every
    breakpoint and places a sign for each one whose buffer is loaded. *)
Lemma place_signs_run g p bps w :
  pudb_sign_group (vim w) = Some g →
  pudb_priority (vim w) = Some p →
  for_each bps place_sign w =
  (Return tt,
   mkWorld (store w)
     (set_signs
        (signs (vim w) ++ (sign_of g p <$> filter (has_buffer (vim w)) bps))
        (vim w))
     (trace w ++ (place_event (vim w) g p <$> bps))).
Proof.
  revert w. induction bps as [|bp bps IH]; intros [st v tr] Hg Hp; cbn in Hg, Hp.
  - cbn. rewrite !app_nil_r. by destruct v.
  - cbn [for_each]. unfold_monad. unfold place_sign at 1. unfold_monad. unfold_vim.
    cbn. rewrite Hp. cbn. rewrite Hg. cbn. unfold place_event at 1.
    case_decide as Hb; case_bool_decide; try done.
    + destruct Hb as [ls Hb]. rewrite Hb. cbn.
      rewrite IH by (by destruct v). cbn.
      rewrite <- !app_assoc. by destruct v.
    + unfold has_buffer in Hb. rewrite <- eq_None_not_Some in Hb. rewrite Hb. cbn.
      rewrite IH by done. cbn. by rewrite <- !app_assoc.
Qed.

Lemma update_frame w :
  ∃ sg evs,
    exec update w = mkWorld (store w) (set_signs sg (vim w)) (trace w ++ evs) ∧
    Forall update_event evs.
Proof.
  unfold update. destruct w as [st v tr]. unfold_monad.
  unfold vim_command_sign_unplace. cbn.
  destruct (pudb_sign_group v) as [g|]; cbn.
  - rewrite breakpoints_run. cbn.
    match goal with |- context [for_each ?l place_sign ?w'] =>
      destruct (place_signs_frame l w') as (r & sg & evs & -> & Hevs) end.
    cbn. exists sg, (EvSignUnplace g :: EvLoad :: evs).
    rewrite <- !app_assoc. split; [done | by repeat constructor].
  - exists (signs v), []. rewrite app_nil_r.
    split; [by destruct v | constructor].
Qed.

Lemma update_run g p w :
  pudb_sign_group (vim w) = Some g →
  pudb_priority (vim w) = Some p →
  update w =
  (Return tt,
   mkWorld (store w)
     (set_signs
        (filter (λ s, sign_group s ≠ g) (signs (vim w)) ++
         (sign_of g p <$> filter (has_buffer (vim w)) (saved w)))
        (vim w))
     (trace w ++ EvSignUnplace g :: EvLoad ::
        (place_event (vim w) g p <$> saved w))).
Proof.
  intros Hg Hp. unfold update. destruct w as [st v tr]. cbn in Hg, Hp.
  unfold_monad. unfold vim_command_sign_unplace. cbn. rewrite Hg. cbn.
  rewrite breakpoints_run. cbn.
  erewrite place_signs_run by (cbn; eassumption). cbn.
  rewrite <- !app_assoc. by destruct v.
Qed.

(** [update] after [m]: the store and the cursor are those that [m] left. *)
Lemma then_update_frame {A} (m : M A) w :
  ∃ sg evs,
    exec (m;; update) w =
    mkWorld (store (exec m w)) (set_signs sg (vim (exec m w)))
      (trace (exec m w) ++ evs) ∧
    Forall update_event evs.
Proof.
  unfold_monad. destruct (m w) as [[a|e] w'] eqn:Hm; cbn.
  - apply (update_frame w').
  - exists (signs (vim w')), []. rewrite app_nil_r.
    split; [by destruct w' as [? [] ?] | constructor].
Qed.

Lemma saved_records bps :
  Breakpoint_of_record <$> (record_of_Breakpoint <$> bps) = bps.
Proof.
  rewrite <- list_fmap_compose. rewrite <- (list_fmap_id bps) at 2.
  apply list_fmap_ext. by intros _ [] _.
Qed.

Lemma toggle_frame w :
  ∃ sg evs,
    exec toggle w =
    mkWorld
      (record_of_Breakpoint <$>
         dict.values (toggled (position w) (dict.of_breakpoints (saved w))))
      (set_signs sg (vim w)) (trace w ++ evs).
Proof.
  unfold toggle. unfold_monad. rewrite breakpoint_dict_run.
  rewrite current_position_run. unfold save_breakpoints.
  match goal with |- context [update ?w'] =>
    destruct (update_frame w') as (sg & evs & Hu & _) end.
  unfold exec in Hu. rewrite Hu. cbn.
  eexists sg, (EvLoad :: EvSave _ :: evs). by rewrite <- !app_assoc.
Qed.

Lemma toggle_saved w :
  saved (exec toggle w) =
  dict.values (toggled (position w) (dict.of_breakpoints (saved w))).
Proof.
  destruct (toggle_frame w) as (sg & evs & ->). unfold saved at 1. cbn.
  apply saved_records.
Qed.

Lemma toggle_position w : position (exec toggle w) = position w.
Proof. by destruct (toggle_frame w) as (sg & evs & ->). Qed.

(** Toggling at a key that has a breakpoint drops that breakpoint. *)
Lemma toggle_saved_present w :
  NoDup (key_of <$> saved w) →
  position w ∈ key_of <$> saved w →
  saved (exec toggle w) = filter (λ bp, key_of bp ≠ position w) (saved w).
Proof.
  intros Hd Hin. rewrite toggle_saved. unfold toggled.
  assert (dict.mem (position w) (dict.of_breakpoints (saved w)) = true) as ->.
  { apply dict_mem_spec. by rewrite of_breakpoints_keys. }
  rewrite dict_pop_filter by apply of_breakpoints_NoDup.
  rewrite of_breakpoints_distinct by done.
  unfold dict.values. generalize (saved w). intros l.
  induction l as [|bp l IH]; [done|]. csimpl.
  rewrite !filter_cons. csimpl.
  destruct (decide (key_of bp ≠ position w)); csimpl; by rewrite IH.
Qed.

(** Toggling at a key that has none appends a fresh breakpoint. *)
Lemma toggle_saved_absent w :
  NoDup (key_of <$> saved w) →
  position w ∉ key_of <$> saved w →
  saved (exec toggle w) = saved w ++ [Breakpoint_at (position w)].
Proof.
  intros Hd Hin. rewrite toggle_saved. unfold toggled.
  assert (dict.mem (position w) (dict.of_breakpoints (saved w)) = false) as ->.
  { apply not_true_is_false. rewrite dict_mem_spec.
    by rewrite of_breakpoints_keys. }
  rewrite dict_set_fresh by (by rewrite of_breakpoints_keys).
  unfold dict.values. rewrite fmap_app.
  fold (dict.values (dict.of_breakpoints (saved w))).
  by rewrite of_breakpoints_values.
Qed.

Lemma key_of_Breakpoint_at k : key_of (Breakpoint_at k) = k.
Proof. by destruct k. Qed.

Lemma filter_key_absent k (bps : list Breakpoint) :
  k ∉ key_of <$> bps → filter (λ bp, key_of bp ≠ k) bps = bps.
Proof.
  induction bps as [|bp bps IH]; csimpl; intros Hk; [done|].
  apply not_elem_of_cons in Hk as [Hne Hk].
  rewrite filter_cons_True by done. by rewrite IH.
Qed.

Lemma retoggled_absent k (bps : list Breakpoint) :
  k ∉ key_of <$> bps → retoggled k <$> bps = bps.
Proof.
  induction bps as [|bp bps IH]; csimpl; intros Hk; [done|].
  apply not_elem_of_cons in Hk as [Hne Hk].
  unfold retoggled at 1. rewrite decide_False by done. by rewrite IH.
Qed.

Lemma retoggled_present k (bps : list Breakpoint) :
  NoDup (key_of <$> bps) →
  k ∈ key_of <$> bps →
  filter (λ bp, key_of bp ≠ k) bps ++ [Breakpoint_at k] ≡ₚ retoggled k <$> bps.
Proof.
  induction bps as [|bp bps IH]; csimpl; intros Hd Hk.
  - by apply elem_of_nil in Hk.
  - apply NoDup_cons in Hd as [Hbp Hd]. unfold retoggled at 1.
    destruct (decide (key_of bp = k)) as [Heq|Hne].
    + rewrite filter_cons_False by (intros H; by apply H).
      rewrite <- Heq in *.
      rewrite filter_key_absent, retoggled_absent by done.
      by rewrite Permutation_app_comm.
    + rewrite filter_cons_True by done. csimpl.
      apply elem_of_cons in Hk as [Hk|Hk]; [congruence|].
      by rewrite IH.
Qed.

Lemma NoDup_filter_keys k (bps : list Breakpoint) :
  NoDup (key_of <$> bps) →
  NoDup (key_of <$> filter (λ bp, key_of bp ≠ k) bps).
Proof.
  induction bps as [|bp bps IH]; csimpl; intros Hd; [done|].
  apply NoDup_cons in Hd as [Hbp Hd].
  rewrite filter_cons. destruct (decide _); csimpl; [|by apply IH].
  apply NoDup_cons. split; [|by apply IH].
  intros Hin. apply Hbp.
  apply list_elem_of_fmap in Hin as [x [-> Hx]].
  apply list_elem_of_fmap. exists x. split; [done|].
  by apply list_elem_of_filter in Hx as [_ ?].
Qed.

Lemma filter_keys_absent k (bps : list Breakpoint) :
  k ∉ key_of <$> filter (λ bp, key_of bp ≠ k) bps.
Proof.
  intros Hin. apply list_elem_of_fmap in Hin as [x [-> Hx]].
  by apply list_elem_of_filter in Hx as [? _].
Qed.

(** Two toggles at the same key, as a list: a breakpoint that was under
    the cursor has moved to the end and lost its condition. *)
Lemma toggle_toggle_saved w :
  NoDup (key_of <$> saved w) →
  saved (exec toggle (exec toggle w)) =
  if decide (position w ∈ key_of <$> saved w)
  then filter (λ bp, key_of bp ≠ position w) (saved w) ++
       [Breakpoint_at (position w)]
  else saved w.
Proof.
  intros Hd. destruct (decide _) as [Hin|Hin].
  - pose proof (toggle_saved_present w Hd Hin) as H1.
    rewrite toggle_saved_absent; rewrite ?toggle_position, ?H1;
      [done | by apply NoDup_filter_keys | apply filter_keys_absent].
  - pose proof (toggle_saved_absent w Hd Hin) as H1.
    assert (NoDup (key_of <$> saved w ++ [Breakpoint_at (position w)])) as Hd1.
    { rewrite fmap_app. apply NoDup_app. split_and!; [done | | apply NoDup_singleton].
      intros x Hx Hx'. csimpl in Hx'. apply list_elem_of_singleton in Hx'.
      rewrite key_of_Breakpoint_at in Hx'. by subst. }
    rewrite toggle_saved_present; rewrite ?toggle_position, ?H1; [|done|].
    + rewrite filter_app, filter_key_absent by done.
      rewrite filter_cons_False, app_nil_r; [done|].
      rewrite key_of_Breakpoint_at. intros H; by apply H.
    + rewrite fmap_app. apply elem_of_app. right. csimpl.
      rewrite key_of_Breakpoint_at. apply list_elem_of_here.
Qed.

Lemma ensured_get k d :
  dict.get k (ensured k d) = Some (edited_breakpoint k d).
Proof.
  unfold ensured, edited_breakpoint.
  destruct (dict.mem k d) eqn:Hm; cbn.
  - destruct (dict.get k d) eqn:Hg; [done|].
    apply dict_get_None in Hg. by apply dict_mem_spec in Hm.
  - assert (dict.get k d = None) as ->.
    { apply dict_get_None. rewrite <- dict_mem_spec. congruence. }
    apply dict_get_set_eq.
Qed.

Lemma edit_lookup_run w :
  edit_lookup w =
  (Return (ensured (position w) (dict.of_breakpoints (saved w)), position w,
           edited_breakpoint (position w) (dict.of_breakpoints (saved w))),
   log EvLoad w).
Proof.
  unfold edit_lookup. unfold_monad. rewrite breakpoint_dict_run.
  rewrite current_position_run. unfold getitem.
  change (position (log EvLoad w)) with (position w).
  fold (ensured (position w) (dict.of_breakpoints (saved w))).
  by rewrite ensured_get.
Qed.

Lemma edit_prompt_run (d : dict.t) k bp w :
  edit_prompt d k bp w =
  (Return (dict.set k (set_cond (Some (answer w)) bp) d),
   mkWorld (store w) (set_typed (tail (typed (vim w))) (vim w))
     (trace w ++ prompt_events (old_cond bp) (answer w))).
Proof.
  unfold edit_prompt, answer, prompt_events, old_cond. unfold_monad. unfold_vim.
  destruct w as [st v tr]. cbn.
  destruct (typed v) eqn:Hty; cbn; rewrite <- !app_assoc; cbn.
  - destruct v. cbn in *. by subst.
  - done.
Qed.

Lemma edit_frame w :
  let k := position w in
  let d := edited k (answer w) (dict.of_breakpoints (saved w)) in
  ∃ sg evs,
    exec edit w =
    mkWorld (record_of_Breakpoint <$> dict.values d)
      (set_signs sg (set_typed (tail (typed (vim w))) (vim w)))
      (trace w ++
       EvLoad ::
       prompt_events
         (old_cond (edited_breakpoint k (dict.of_breakpoints (saved w))))
         (answer w) ++
       EvSave (record_of_Breakpoint <$> dict.values d) :: evs) ∧
    Forall update_event evs.
Proof.
  intros k d. unfold edit. unfold_monad. rewrite edit_lookup_run.
  rewrite edit_prompt_run. unfold save_breakpoints.
  match goal with |- context [update ?w'] =>
    destruct (update_frame w') as (sg & evs & Hu & Hevs) end.
  unfold exec in Hu. rewrite Hu. clear Hu.
  exists sg, evs. split; [|done].
  subst d k. unfold edited, log, with_store, answer. cbn.
  by rewrite <- !app_assoc.
Qed.

Lemma edit_saved w :
  saved (exec edit w) =
  dict.values (edited (position w) (answer w) (dict.of_breakpoints (saved w))).
Proof.
  destruct (edit_frame w) as (sg & evs & -> & _). unfold saved at 1. cbn.
  apply saved_records.
Qed.

Lemma well_keyed_get k v d : well_keyed d → dict.get k d = Some v → key_of v = k.
Proof.
  unfold well_keyed. induction 1 as [|[k' v'] d Hk _ IH]; csimpl; [done|].
  cbn in Hk. destruct (decide (k' = k)) as [->|Hne]; [|done].
  by intros [= <-].
Qed.

Lemma edited_breakpoint_key k d :
  well_keyed d → key_of (edited_breakpoint k d) = k.
Proof.
  intros Hd. unfold edited_breakpoint.
  destruct (dict.get k d) eqn:Hg; cbn.
  - by apply (well_keyed_get k _ d).
  - apply key_of_Breakpoint_at.
Qed.

Lemma ensured_NoDup k d : NoDup d.*1 → NoDup (ensured k d).*1.
Proof.
  intros Hd. unfold ensured. destruct (negb _); [|done].
  by apply dict_set_NoDup.
Qed.

Lemma ensured_well_keyed k d : well_keyed d → well_keyed (ensured k d).
Proof.
  intros Hd. unfold ensured. destruct (negb _); [|done].
  apply dict_set_well_keyed; [|done]. by rewrite key_of_Breakpoint_at.
Qed.

Lemma edited_NoDup k ans d : NoDup d.*1 → NoDup (edited k ans d).*1.
Proof. intros Hd. by apply dict_set_NoDup, ensured_NoDup. Qed.

Lemma edited_well_keyed k ans d : well_keyed d → well_keyed (edited k ans d).
Proof.
  intros Hd. apply dict_set_well_keyed; [|by apply ensured_well_keyed].
  change (key_of (set_cond (Some ans) (edited_breakpoint k d)))
    with (key_of (edited_breakpoint k d)).
  by rewrite edited_breakpoint_key.
Qed.

Lemma dict_set_values_elem k v d : v ∈ dict.values (dict.set k v d).
Proof.
  unfold dict.values. induction d as [|[k' v'] d IH]; csimpl.
  - apply list_elem_of_here.
  - destruct (decide (k' = k)); csimpl.
    + apply list_elem_of_here.
    + by apply list_elem_of_further.
Qed.

Lemma getbufline_source_line v bp :
  getbufline v (file bp) (line bp) =
  match source_line v bp with
  | Some text => [text]
  | None => []
  end.
Proof.
  unfold getbufline, source_line.
  destruct (buffers v !! file bp); [|done].
  destruct (decide _); [|done]. by destruct (_ !! _).
Qed.

Lemma populate_line_run bp w :
  populate_line bp w = (Return (line_text (vim w) bp), log (getbufline_event bp) w).
Proof.
  unfold populate_line, line_text. unfold_monad. unfold vim_eval_getbufline.
  destruct (getbufline (vim w) (file bp) (line bp)) as [|text ?]; cbn; [done|].
  by destruct (decide _).
Qed.

Lemma populate_loop_run bps (acc : list string) w :
  for_fold bps (λ qflist bp,
    text ← populate_line bp;
    mret (qflist ++ [String.concat ":" [file bp; pretty (line bp); text]]))
    acc w =
  (Return (acc ++ (qf_entry (vim w) <$> bps)),
   mkWorld (store w) (vim w) (trace w ++ (getbufline_event <$> bps))).
Proof.
  revert acc w. induction bps as [|bp bps IH]; intros acc [st v tr].
  - cbn. by rewrite !app_nil_r.
  - cbn [for_fold]. unfold_monad. rewrite populate_line_run.
    unfold log. cbn [store vim trace]. rewrite IH. cbn.
    by rewrite <- !app_assoc.
Qed.

Lemma populateList_run g p list_command w :
  pudb_sign_group (vim w) = Some g →
  pudb_priority (vim w) = Some p →
  populateList list_command w =
  (Return tt,
   mkWorld (store w)
     (set_signs
        (filter (λ s, sign_group s ≠ g) (signs (vim w)) ++
         (sign_of g p <$> filter (has_buffer (vim w)) (saved w)))
        (vim w))
     (trace w ++
      (EvSignUnplace g :: EvLoad :: (place_event (vim w) g p <$> saved w)) ++
      EvLoad :: (getbufline_event <$> saved w) ++
      [EvListCommand list_command (qf_entry (vim w) <$> saved w)])).
Proof.
  intros Hg Hp. unfold populateList. unfold_monad.
  rewrite (update_run g p) by done. rewrite breakpoints_run.
  unfold log at 1. cbn [store vim trace]. unfold saved at 1. cbn [store].
  fold (saved w). rewrite populate_loop_run. unfold vim_command_list, log.
  cbn. by rewrite <- !app_assoc.
Qed.

End runs.


(** ** The claims *)

Lemma Breakpoint_at_key bp : cond bp = None → Breakpoint_at (key_of bp) = bp.
Proof. destruct bp as [f l c]. cbn. by intros ->. Qed.

Lemma retoggled_unconditional k (bps : list Breakpoint) :
  (∀ bp, bp ∈ bps → key_of bp = k → cond bp = None) →
  retoggled k <$> bps = bps.
Proof.
  induction bps as [|bp bps IH]; csimpl; intros Hc; [done|].
  rewrite IH by (intros b Hb; apply Hc; by apply list_elem_of_further).
  f_equal. unfold retoggled. destruct (decide _) as [<-|]; [|done].
  apply Breakpoint_at_key, Hc; [apply list_elem_of_here | done].
Qed.

(** C1, as amended.  On a store whose keys are pairwise distinct, two
    toggles at the same cursor position leave the original set of
    breakpoints, except that a breakpoint under the cursor comes back
    without its condition: the second toggle creates a fresh breakpoint.
    So the original set is restored whenever no breakpoint with a
    condition sits under the cursor.  The set is compared up to the order
    of the records, since a breakpoint toggled off and on moves to the
    end of the store. *)
Theorem toggle_twice w :
  NoDup (key_of <$> saved w) →
  saved (exec toggle (exec toggle w)) ≡ₚ retoggled (position w) <$> saved w ∧
  ((∀ bp, bp ∈ saved w → key_of bp = position w → cond bp = None) →
   saved (exec toggle (exec toggle w)) ≡ₚ saved w).
Proof.
  intros Hd.
  assert (saved (exec toggle (exec toggle w)) ≡ₚ
          retoggled (position w) <$> saved w) as Hperm.
  { rewrite toggle_toggle_saved by done.
    destruct (decide _) as [Hin|Hin].
    - by apply retoggled_present.
    - by rewrite retoggled_absent. }
  split; [done|]. intros Hc. by rewrite Hperm, retoggled_unconditional.
Qed.

(** The store of the scenarios, the cursor on the breakpoint of line 10,
    which has no condition: two toggles restore the set. *)
Lemma toggle_twice_witness :
  saved (exec toggle (exec toggle sample_world)) ≡ₚ saved sample_world.
Proof.
  apply (toggle_twice sample_world).
  - apply (bool_decide_unpack _). by vm_compute.
  - intros bp Hbp Hk. vm_compute in Hbp, Hk.
    apply elem_of_cons in Hbp as [->|Hbp]; [done|].
    apply list_elem_of_singleton in Hbp as ->. discriminate.
Defined.

(** C1, as stated, fails: with the cursor on the breakpoint that has the
    condition [x>0], two toggles leave that breakpoint without condition. *)
Lemma toggle_twice_drops_condition :
  NoDup (key_of <$> saved conditional_world) ∧
  saved (exec toggle (exec toggle conditional_world)) =
    [mkBreakpoint "/a.py" 10 None; mkBreakpoint "/a.py" 20 None] ∧
  ¬ saved (exec toggle (exec toggle conditional_world)) ≡ₚ
    saved conditional_world.
Proof.
  assert (saved (exec toggle (exec toggle conditional_world)) =
          [mkBreakpoint "/a.py" 10 None; mkBreakpoint "/a.py" 20 None]) as Hs
    by (by vm_compute).
  split_and!; [apply (bool_decide_unpack _); by vm_compute | done |].
  rewrite Hs. intros Hp.
  assert (mkBreakpoint "/a.py" 20 (Some "x>0") ∈
          [mkBreakpoint "/a.py" 10 None; mkBreakpoint "/a.py" 20 None]) as Hin.
  { rewrite Hp. vm_compute. apply list_elem_of_further, list_elem_of_here. }
  apply elem_of_cons in Hin as [?|Hin]; [done|].
  by apply list_elem_of_singleton in Hin.
Qed.

Lemma record_of_Breakpoint_of_record r :
  record_of_Breakpoint (Breakpoint_of_record r) = r.
Proof. by destruct r as [[f l] c]. Qed.

Lemma records_saved w : record_of_Breakpoint <$> saved w = store w.
Proof.
  unfold saved. rewrite <- list_fmap_compose.
  rewrite <- (list_fmap_id (store w)) at 2.
  apply list_fmap_ext. intros _ r _. apply record_of_Breakpoint_of_record.
Qed.





(** C2.  Whatever the store held before, also records that share a key,
    the breakpoints that [toggle], [edit] and [clearAll] persist have
    pairwise distinct (file, line) keys. *)
Theorem persisted_keys_unique w :
  NoDup (key_of <$> saved (exec toggle w)) ∧
  NoDup (key_of <$> saved (exec edit w)) ∧
  NoDup (key_of <$> saved (exec clearAll w)).
Proof.
  pose proof (of_breakpoints_NoDup (saved w)) as Hd.
  pose proof (of_breakpoints_well_keyed (saved w)) as Hk.
  split_and!.
  - rewrite toggle_saved. unfold toggled.
    destruct (dict.mem _ _).
    + rewrite well_keyed_values.
      * by apply dict_pop_NoDup.
      * eapply well_keyed_sublist; [apply dict_pop_subseteq | done].
    + rewrite well_keyed_values.
      * by apply dict_set_NoDup.
      * apply dict_set_well_keyed; [|done]. by rewrite key_of_Breakpoint_at.
  - rewrite edit_saved. rewrite well_keyed_values.
    + by apply edited_NoDup.
    + by apply edited_well_keyed.
  - destruct (then_update_frame (save_breakpoints []) w) as (sg & evs & Hc & _).
    unfold clearAll. rewrite Hc. cbn. constructor.
Qed.

(** C4.  From any world, [clearAll] leaves an empty store, and the dict
    that [breakpoint_dict] then loads is empty. *)
Theorem clearAll_then_dict_empty w :
  store (exec clearAll w) = [] ∧
  outcome breakpoint_dict (exec clearAll w) = Return dict.empty.
Proof.
  destruct (then_update_frame (save_breakpoints []) w) as (sg & evs & Hc & _).
  unfold clearAll. rewrite Hc. by split.
Qed.


(** C3.  [breakpoint_strings] yields one string per breakpoint, in the
    order of the store, each of the form [file:line:condition], where the
    last part is the condition when the breakpoint has one and a single
    space when it is unconditional; on the store of the scenario the
    strings are [/a.py:10: ] and [/a.py:20:x>0]. *)
Theorem breakpoint_strings_format w :
  outcome breakpoint_strings w = Return (breakpoint_string <$> saved w) ∧
  (∀ bp c, cond bp = Some c → c ≠ "" →
     breakpoint_string bp = file bp +:+ ":" +:+ pretty (line bp) +:+ ":" +:+ c) ∧
  (∀ bp, unconditional bp →
     breakpoint_string bp =
     file bp +:+ ":" +:+ pretty (line bp) +:+ ":" +:+ " ") ∧
  (store w = [("/a.py", 10, None); ("/a.py", 20, Some "x>0")] →
   outcome breakpoint_strings w = Return ["/a.py:10: "; "/a.py:20:x>0"]).
Proof.
  split_and!.
  - done.
  - intros bp c Hc Hne. unfold breakpoint_string. rewrite Hc.
    by rewrite decide_False.
  - intros bp [Hc|Hc]; unfold breakpoint_string; by rewrite Hc.
  - intros Hst. unfold outcome, breakpoint_strings. unfold_monad.
    rewrite breakpoints_run. unfold saved. rewrite Hst. by vm_compute.
Qed.

Lemma dict_keys_of_breakpoints k (bps : list Breakpoint) :
  k ∈ (dict.of_breakpoints bps).*1 ↔ k ∈ key_of <$> bps.
Proof.
  destruct (dict.get k (dict.of_breakpoints bps)) as [bp|] eqn:Hg.
  - split; intros _.
    + rewrite of_breakpoints_get in Hg.
      apply last_Some_elem_of, list_elem_of_filter in Hg as [<- Hin].
      by apply list_elem_of_fmap_2.
    + destruct (decide (k ∈ (dict.of_breakpoints bps).*1)) as [|Hn]; [done|].
      apply dict_get_None in Hn. congruence.
  - pose proof Hg as Hn. apply dict_get_None in Hn.
    rewrite of_breakpoints_get in Hg. apply last_None in Hg.
    split; [done|]. intros Hin.
    apply list_elem_of_fmap in Hin as [bp [-> Hbp]].
    assert (bp ∈ filter (λ b, key_of b = key_of bp) bps) as Hf
      by (by apply list_elem_of_filter).
    rewrite Hg in Hf. by apply elem_of_nil in Hf.
Qed.

Lemma edited_breakpoint_elem k ans (bps : list Breakpoint) :
  mkBreakpoint k.1 k.2 (Some ans) ∈
  dict.values (edited k ans (dict.of_breakpoints bps)).
Proof.
  pose proof (edited_breakpoint_key k _ (of_breakpoints_well_keyed bps)) as Hk.
  unfold edited. destruct (edited_breakpoint _ _) as [f l c]. cbn in Hk.
  subst k. apply dict_set_values_elem.
Qed.

(** C10.  A breakpoint whose condition is the empty string is shown like
    one without condition, with a single space.  So when the user answers
    the prompt of [edit] with the empty string, the breakpoint under the
    cursor is persisted with the empty string for a condition and is
    listed like a breakpoint without condition. *)
Theorem empty_condition_listed_as_none w :
  answer w = "" →
  (∀ f l,
     breakpoint_string (mkBreakpoint f l (Some "")) =
     breakpoint_string (mkBreakpoint f l None)) ∧
  mkBreakpoint (position w).1 (position w).2 (Some "") ∈ saved (exec edit w) ∧
  ∃ strs,
    outcome breakpoint_strings (exec edit w) = Return strs ∧
    breakpoint_string (Breakpoint_at (position w)) ∈ strs.
Proof.
  intros Ha.
  assert (mkBreakpoint (position w).1 (position w).2 (Some "") ∈
          saved (exec edit w)) as Hin.
  { rewrite edit_saved, Ha. apply edited_breakpoint_elem. }
  split_and!; [done | done |].
  exists (breakpoint_string <$> saved (exec edit w)). split; [done|].
  change (breakpoint_string (Breakpoint_at (position w)))
    with (breakpoint_string
            (mkBreakpoint (position w).1 (position w).2 (Some ""))).
  by apply list_elem_of_fmap_2.
Qed.

(** The user empties the condition of the breakpoint of line 20: it is
    saved with the empty string and listed with a space. *)
Lemma empty_condition_listed_as_none_witness :
  answer silent_world = "" ∧
  ("/a.py", 20, Some "") ∈ store (exec edit silent_world) ∧
  outcome breakpoint_strings (exec edit silent_world) =
    Return ["/a.py:10: "; "/a.py:20: "].
Proof.
  destruct (empty_condition_listed_as_none silent_world)
    as (_ & Hin & strs & Hstrs & _); [done|].
  split_and!; [done | | by vm_compute].
  rewrite <- records_saved.
  by apply (list_elem_of_fmap_2 record_of_Breakpoint) in Hin.
Defined.

(** C5.  When no breakpoint of the store has the key under the cursor,
    the first part of [edit] adds exactly one entry to the loaded dict, a
    breakpoint without condition under that key, and leaves the store as
    it was.  The prompt comes next, offering the empty text, and only
    after the user's answer are the breakpoints saved, the new one with
    the answer for a condition: in the trace the save follows the prompt,
    and the rest of the trace holds no further save. *)
Theorem edit_inserts_before_prompt w :
  position w ∉ key_of <$> saved w →
  let k := position w in
  let d := dict.of_breakpoints (saved w) in
  let persisted :=
    record_of_Breakpoint <$>
      (dict.values d ++ [mkBreakpoint k.1 k.2 (Some (answer w))]) in
  edit_lookup w =
    (Return (d ++ [(k, Breakpoint_at k)], k, Breakpoint_at k), log EvLoad w) ∧
  store (exec edit_lookup w) = store w ∧
  store (exec edit w) = persisted ∧
  ∃ evs,
    trace (exec edit w) =
      trace w ++
      [EvLoad; EvEcho "Current condition: "; EvEchohl "Question"; EvInputsave;
       EvInput "New Condition: " "" (answer w); EvInputrestore;
       EvEchohl "None"; EvSave persisted] ++ evs ∧
    Forall update_event evs.
Proof.
  intros Hk k d persisted.
  assert (k ∉ d.*1) as Hd
    by (subst d k; by rewrite dict_keys_of_breakpoints).
  assert (ensured k d = d ++ [(k, Breakpoint_at k)]) as He.
  { unfold ensured. rewrite <- dict_mem_spec in Hd.
    apply not_true_is_false in Hd. rewrite Hd. cbn.
    apply dict_set_fresh. rewrite <- dict_mem_spec. congruence. }
  assert (edited_breakpoint k d = Breakpoint_at k) as Hb.
  { unfold edited_breakpoint. apply dict_get_None in Hd. by rewrite Hd. }
  assert (dict.values (edited k (answer w) d) =
          dict.values d ++ [mkBreakpoint k.1 k.2 (Some (answer w))]) as Hv.
  { unfold edited. rewrite He, Hb.
    assert (dict.set k (set_cond (Some (answer w)) (Breakpoint_at k))
              (d ++ [(k, Breakpoint_at k)]) =
            d ++ [(k, set_cond (Some (answer w)) (Breakpoint_at k))]) as ->.
    { clear He Hb. induction d as [|[k' v'] d' IH]; csimpl.
      - by rewrite decide_True.
      - apply not_elem_of_cons in Hd as [Hne Hd].
        rewrite decide_False by done. by rewrite IH. }
    unfold dict.values. by rewrite fmap_app. }
  destruct (edit_frame w) as (sg & evs & Hrun & Hevs).
  fold k d in Hrun. rewrite Hv, Hb in Hrun. fold persisted in Hrun.
  split_and!.
  - rewrite edit_lookup_run. fold k d. by rewrite He, Hb.
  - unfold exec. by rewrite edit_lookup_run.
  - by rewrite Hrun.
  - exists evs. split; [|done]. by rewrite Hrun.
Qed.

(** [edit] on line 4, which has no breakpoint, the user typing [x>0]: the
    store gains one breakpoint, with that condition. *)
Lemma edit_inserts_before_prompt_witness :
  (position fresh_world ∉ key_of <$> saved fresh_world) ∧
  store (exec edit fresh_world) =
    [("/a.py", 10, None); ("/a.py", 20, Some "x>0"); ("/a.py", 4, Some "x>0")].
Proof.
  assert (position fresh_world ∉ key_of <$> saved fresh_world) as Hk.
  { apply (bool_decide_unpack _). by vm_compute. }
  split; [done|].
  destruct (edit_inserts_before_prompt fresh_world Hk) as (_ & _ & Hst & _).
  rewrite Hst. by vm_compute.
Defined.

Lemma qf_entry_format v bp :
  qf_entry v bp =
  file bp +:+ ":" +:+ pretty (line bp) +:+ ":" +:+ line_text v bp.
Proof. done. Qed.

Lemma line_text_cases v bp :
  match source_line v bp with
  | None => line_text v bp = "<buffer not loaded>"
  | Some t =>
      (blank t → line_text v bp = "<blank line>") ∧
      (¬ blank t → line_text v bp = t)
  end.
Proof.
  unfold line_text. rewrite getbufline_source_line.
  destruct (source_line v bp) as [t|]; [|done].
  destruct (decide (strip (code_points t) = [])) as [Hs|Hs];
    rewrite strip_empty in Hs.
  - by split.
  - by split.
Qed.

(** C7.  With the sign group and the priority configured, [populateList]
    ends by handing to the list command one entry per saved breakpoint, in
    the order of the store, each of the form [file:line:text].  The text is
    [<buffer not loaded>] when no buffer is loaded for the file (and also
    when the buffer has no such line), [<blank line>] when the line is
    empty or made of whitespace characters only, those of Python 3, each
    given by its bytes in [whitespace_characters], and the line itself
    otherwise. *)
Theorem populateList_entries g p list_command w :
  pudb_sign_group (vim w) = Some g →
  pudb_priority (vim w) = Some p →
  ∃ qflist,
    outcome (populateList list_command) w = Return tt ∧
    last (trace (exec (populateList list_command) w)) =
      Some (EvListCommand list_command qflist) ∧
    length qflist = length (saved w) ∧
    ∀ (i : nat) bp,
      saved w !! i = Some bp →
      ∃ text,
        qflist !! i =
          Some (file bp +:+ ":" +:+ pretty (line bp) +:+ ":" +:+ text) ∧
        (buffers (vim w) !! file bp = None → text = "<buffer not loaded>") ∧
        (source_line (vim w) bp = None → text = "<buffer not loaded>") ∧
        (∀ t, source_line (vim w) bp = Some t → blank t →
              text = "<blank line>") ∧
        (∀ t, source_line (vim w) bp = Some t → ¬ blank t → text = t).
Proof.
  intros Hg Hp. exists (qf_entry (vim w) <$> saved w).
  unfold outcome, exec. rewrite (populateList_run g p) by done. cbn.
  split_and!.
  - done.
  - rewrite !app_comm_cons, !app_assoc. apply last_snoc.
  - by rewrite length_fmap.
  - intros i bp Hi. exists (line_text (vim w) bp).
    pose proof (line_text_cases (vim w) bp) as Hcases.
    split_and!.
    + by rewrite list_lookup_fmap, Hi.
    + intros Hb. unfold source_line in Hcases. by rewrite Hb in Hcases.
    + intros Hs. by rewrite Hs in Hcases.
    + intros t Hs Ht. rewrite Hs in Hcases. by apply Hcases.
    + intros t Hs Ht. rewrite Hs in Hcases. by apply Hcases.
Qed.

(** The scenario of the spec, and the two other texts: [/a.py] has no
    buffer, line 3 of [/b.py] is made of spaces, line 4 is code.  Then
    lines of whitespace beyond ASCII: a no-break space, an ideographic
    space with a space and a tab, and a line of code that ends in a
    no-break space, which is handed over as it is. *)
Lemma populateList_entries_witness :
  (∃ qflist,
     last (trace (exec (populateList "cgetexpr") listing_world)) =
       Some (EvListCommand "cgetexpr" qflist) ∧
     qflist !! 0%nat = Some "/a.py:10:<buffer not loaded>" ∧
     qflist !! 1%nat = Some "/b.py:3:<blank line>" ∧
     qflist !! 2%nat = Some "/b.py:4:x = 1") ∧
  (∃ qflist,
     last (trace (exec (populateList "lgetexpr") unicode_world)) =
       Some (EvListCommand "lgetexpr" qflist) ∧
     qflist !! 0%nat = Some "/b.py:1:<blank line>" ∧
     qflist !! 1%nat = Some "/b.py:2:<blank line>" ∧
     qflist !! 2%nat =
       Some ("/b.py:3:" +:+ text_of_bytes [120; 194; 160]%N)).
Proof.
  split.
  - destruct (populateList_entries "pudb_sign_group" 100 "cgetexpr"
                listing_world)
      as (qflist & _ & Hlast & _ & Hentries); [done | done |].
    exists qflist. split; [exact Hlast|]. split_and!.
    + destruct (Hentries 0%nat (mkBreakpoint "/a.py" 10 None))
        as (text & -> & Hnone & _); [done|].
      by rewrite Hnone.
    + destruct (Hentries 1%nat (mkBreakpoint "/b.py" 3 None))
        as (text & -> & _ & _ & Hblank & _); [done|].
      rewrite (Hblank "   "); [done | done |].
      apply strip_empty. by vm_compute.
    + destruct (Hentries 2%nat (mkBreakpoint "/b.py" 4 (Some "x>0")))
        as (text & -> & _ & _ & _ & Htext); [done|].
      rewrite (Htext "x = 1"); [done | done |].
      intros H%strip_empty. by vm_compute in H.
  - destruct (populateList_entries "pudb_sign_group" 100 "lgetexpr"
                unicode_world)
      as (qflist & _ & Hlast & _ & Hentries); [done | done |].
    exists qflist. split; [exact Hlast|]. split_and!.
    + destruct (Hentries 0%nat (mkBreakpoint "/b.py" 1 None))
        as (text & -> & _ & _ & Hblank & _); [done|].
      rewrite (Hblank (text_of_bytes [194; 160]%N)); [done | done |].
      apply strip_empty. by vm_compute.
    + destruct (Hentries 1%nat (mkBreakpoint "/b.py" 2 None))
        as (text & -> & _ & _ & Hblank & _); [done|].
      rewrite (Hblank (text_of_bytes [227; 128; 128; 32; 9]%N));
        [done | done |].
      apply strip_empty. by vm_compute.
    + destruct (Hentries 2%nat (mkBreakpoint "/b.py" 3 None))
        as (text & -> & _ & _ & _ & Htext); [done|].
      rewrite (Htext (text_of_bytes [120; 194; 160]%N)); [done | done |].
      intros H%strip_empty. by vm_compute in H.
Defined.

(** C8.  With the sign group and the priority configured, [update] does
    not fail.  It first removes the signs of the group, then tries to
    place one sign per saved breakpoint, in the order of the store: every
    breakpoint is tried, one whose file has no buffer is skipped, and each
    of the others gets its sign, whatever happened to the ones before.
    Afterwards the signs of the group are those of the saved breakpoints
    with a buffer. *)
Theorem update_skips_unloaded g p w :
  pudb_sign_group (vim w) = Some g →
  pudb_priority (vim w) = Some p →
  outcome update w = Return tt ∧
  trace (exec update w) =
    trace w ++
    EvSignUnplace g :: EvLoad :: (place_event (vim w) g p <$> saved w) ∧
  signs (vim (exec update w)) =
    filter (λ s, sign_group s ≠ g) (signs (vim w)) ++
    (sign_of g p <$> filter (has_buffer (vim w)) (saved w)) ∧
  (∀ bp, bp ∈ saved w → has_buffer (vim w) bp →
         sign_of g p bp ∈ signs (vim (exec update w))) ∧
  (∀ s, s ∈ signs (vim (exec update w)) → sign_group s = g →
        ∃ bp, bp ∈ saved w ∧ has_buffer (vim w) bp ∧ s = sign_of g p bp).
Proof.
  intros Hg Hp. unfold outcome, exec. rewrite (update_run g p) by done. cbn.
  split_and!; [done | done | done | |].
  - intros bp Hbp Hb. apply elem_of_app. right.
    apply list_elem_of_fmap_2. by apply list_elem_of_filter.
  - intros s [Hs|Hs]%elem_of_app Hgs.
    + by apply list_elem_of_filter in Hs as [? _].
    + apply list_elem_of_fmap in Hs as [bp [-> Hbp]].
      apply list_elem_of_filter in Hbp as [? ?]. by exists bp.
Qed.

(** The sign of an earlier round goes, the breakpoint of [/a.py], which
    has no buffer, is tried and skipped, and the two of [/b.py] after it
    get their signs. *)
Lemma update_skips_unloaded_witness :
  signs (vim listing_world) =
    [mkSign "pudb_sign_group" "PudbBreakPoint" "/b.py" 1 100] ∧
  trace (exec update listing_world) =
    [EvSignUnplace "pudb_sign_group"; EvLoad;
     EvSignPlace "pudb_sign_group" "/a.py" 10 100 false;
     EvSignPlace "pudb_sign_group" "/b.py" 3 100 true;
     EvSignPlace "pudb_sign_group" "/b.py" 4 100 true] ∧
  signs (vim (exec update listing_world)) =
    [mkSign "pudb_sign_group" "PudbBreakPoint" "/b.py" 3 100;
     mkSign "pudb_sign_group" "PudbBreakPoint" "/b.py" 4 100].
Proof.
  destruct (update_skips_unloaded "pudb_sign_group" 100 listing_world)
    as (_ & Htrace & Hsigns & _ & _); [done | done |].
  split_and!; [done | |].
  - rewrite Htrace. by vm_compute.
  - rewrite Hsigns. by vm_compute.
Defined.

(** ** Further properties of the script *)

Section more_dict_facts.
  Implicit Types (k : Key) (v : Breakpoint) (d : dict.t).

Lemma dict_get_pop_ne k k' d : k ≠ k' → dict.get k' (dict.pop k d) = dict.get k' d.
Proof.
  intros Hne. induction d as [|[k0 v0] d IH]; csimpl; [done|].
  destruct (decide (k0 = k)) as [->|Hne0]; csimpl.
  - by rewrite decide_False.
  - by rewrite IH.
Qed.

Lemma dict_pop_absent k d : NoDup d.*1 → k ∉ (dict.pop k d).*1.
Proof.
  intros Hd. rewrite dict_pop_filter by done. intros Hin.
  apply list_elem_of_fmap in Hin as [[k' v'] [-> Hx]].
  by apply list_elem_of_filter in Hx as [? _].
Qed.

(** In a dict the breakpoints with a given key are the entry of that key,
    if there is one. *)
Lemma dict_values_filter k d :
  NoDup d.*1 → well_keyed d →
  filter (λ bp, key_of bp = k) (dict.values d) = option_list (dict.get k d).
Proof.
  unfold well_keyed, dict.values.
  induction d as [|[k' v'] d IH]; csimpl; intros Hd Hk; [done|].
  apply NoDup_cons in Hd as [Hk' Hd]. apply Forall_cons in Hk as [Hv Hk].
  cbn in Hv. subst k'. rewrite filter_cons.
  destruct (decide (key_of v' = k)) as [<-|Hne].
  - rewrite IH by done. apply dict_get_None in Hk'. by rewrite Hk'.
  - by apply IH.
Qed.

Lemma last_option_list {A} (o : option A) : last (option_list o) = o.
Proof. by destruct o. Qed.

End more_dict_facts.

Section more_runs.
  Implicit Types (w : World) (bp : Breakpoint) (bps : list Breakpoint).

Lemma toggled_NoDup k (d : dict.t) : NoDup d.*1 → NoDup (toggled k d).*1.
Proof.
  intros Hd. unfold toggled. destruct (dict.mem k d).
  - by apply dict_pop_NoDup.
  - by apply dict_set_NoDup.
Qed.

Lemma toggled_well_keyed k (d : dict.t) : well_keyed d → well_keyed (toggled k d).
Proof.
  intros Hd. unfold toggled. destruct (dict.mem k d).
  - eapply well_keyed_sublist; [apply dict_pop_subseteq | done].
  - apply dict_set_well_keyed; [|done]. by rewrite key_of_Breakpoint_at.
Qed.

Lemma toggle_saved_NoDup w : NoDup (key_of <$> saved (exec toggle w)).
Proof.
  rewrite toggle_saved, well_keyed_values.
  - apply toggled_NoDup, of_breakpoints_NoDup.
  - apply toggled_well_keyed, of_breakpoints_well_keyed.
Qed.

(** Without [g:pudb_sign_group] the first statement of [update] fails and
    nothing has happened yet. *)
Lemma update_no_group w :
  pudb_sign_group (vim w) = None → update w = (Raise vim_error, w).
Proof.
  intros Hg. unfold update. unfold_monad. unfold vim_command_sign_unplace.
  by rewrite Hg.
Qed.

Lemma echo_all_run (strs : list string) w :
  for_each strs vim_command_echomsg w =
  (Return tt, mkWorld (store w) (vim w) (trace w ++ (EvEchomsg <$> strs))).
Proof.
  revert w. induction strs as [|s strs IH]; intros [st v tr].
  - cbn. by rewrite app_nil_r.
  - cbn [for_each]. unfold_monad. unfold vim_command_echomsg at 1, log.
    cbn [store vim trace]. rewrite IH. cbn. by rewrite <- app_assoc.
Qed.

End more_runs.


(** X2.  On a store with pairwise distinct keys and no breakpoint under the
    cursor, [toggle] appends one record to the store, the cursor's file
    and line without condition, and leaves the records before it as they
    were; a second [toggle] then gives back the very store, order
    included. *)
Theorem toggle_absent_appends w :
  NoDup (key_of <$> saved w) →
  position w ∉ key_of <$> saved w →
  store (exec toggle w) = store w ++ [((position w).1, (position w).2, None)] ∧
  store (exec toggle (exec toggle w)) = store w.
Proof.
  intros Hd Hk. split.
  - rewrite <- (records_saved (exec toggle w)), toggle_saved_absent by done.
    by rewrite fmap_app, records_saved.
  - rewrite <- (records_saved (exec toggle (exec toggle w))).
    rewrite toggle_toggle_saved by done.
    rewrite decide_False by done. apply records_saved.
Qed.

(** The cursor on line 4, which has no breakpoint. *)
Lemma toggle_absent_appends_witness :
  store (exec toggle fresh_world) =
    [("/a.py", 10, None); ("/a.py", 20, Some "x>0"); ("/a.py", 4, None)] ∧
  store (exec toggle (exec toggle fresh_world)) =
    [("/a.py", 10, None); ("/a.py", 20, Some "x>0")].
Proof.
  apply (toggle_absent_appends fresh_world).
  - apply (bool_decide_unpack _). by vm_compute.
  - apply (bool_decide_unpack _). by vm_compute.
Defined.

(** X3.  Once [toggle] has run, toggling twice more changes nothing: on a
    store with pairwise distinct keys three toggles at the same cursor
    position leave exactly the breakpoints that one toggle leaves, in the
    same order. *)
Theorem toggle_thrice w :
  NoDup (key_of <$> saved w) →
  saved (exec toggle (exec toggle (exec toggle w))) = saved (exec toggle w).
Proof.
  intros Hd. rewrite toggle_toggle_saved by apply toggle_saved_NoDup.
  rewrite toggle_position.
  destruct (decide (position w ∈ key_of <$> saved (exec toggle w)))
    as [Hin|Hin]; [|done].
  destruct (decide (position w ∈ key_of <$> saved w)) as [Hw|Hw].
  - rewrite toggle_saved_present in Hin by done.
    by apply filter_keys_absent in Hin.
  - rewrite toggle_saved_absent by done.
    rewrite filter_app, filter_key_absent by done.
    rewrite filter_cons_False, app_nil_r; [done|].
    rewrite key_of_Breakpoint_at. intros H; by apply H.
Qed.

(** The cursor on the breakpoint with the condition [x>0]: one toggle and
    three toggles both leave the breakpoint of line 10 alone. *)
Lemma toggle_thrice_witness :
  NoDup (key_of <$> saved conditional_world) ∧
  saved (exec toggle (exec toggle (exec toggle conditional_world))) =
  saved (exec toggle conditional_world).
Proof.
  assert (NoDup (key_of <$> saved conditional_world)) as Hd
    by (apply (bool_decide_unpack _); by vm_compute).
  split; [done|]. by apply (toggle_thrice conditional_world).
Defined.

(** X4.  [toggle] does not touch the other keys, whatever the store holds:
    for a key other than the cursor's, the breakpoint that counts for
    that key (the last record with it) is the same before and after, and
    after [toggle] it is the only record with that key. *)
Theorem toggle_keeps_other_keys w k :
  k ≠ position w →
  filter (λ bp, key_of bp = k) (saved (exec toggle w)) =
  option_list (last (filter (λ bp, key_of bp = k) (saved w))).
Proof.
  intros Hk. rewrite toggle_saved.
  rewrite dict_values_filter
    by (apply toggled_NoDup, of_breakpoints_NoDup
        || apply toggled_well_keyed, of_breakpoints_well_keyed).
  f_equal. rewrite <- of_breakpoints_get. unfold toggled.
  destruct (dict.mem _ _).
  - by apply dict_get_pop_ne.
  - by apply dict_get_set_ne.
Qed.

(** Two records for line 20, the cursor on line 10: the later record of
    line 20 is the one that stays. *)
Lemma toggle_keeps_other_keys_witness :
  filter (λ bp, key_of bp = ("/a.py", 20))
    (saved (exec toggle duplicate_world)) =
  [mkBreakpoint "/a.py" 20 (Some "x>0")].
Proof.
  rewrite (toggle_keeps_other_keys duplicate_world ("/a.py", 20)).
  - by vm_compute.
  - by vm_compute.
Defined.

Lemma toggle_presence w :
  position w ∈ key_of <$> saved (exec toggle w) ↔
  position w ∉ key_of <$> saved w.
Proof.
  pose proof (of_breakpoints_NoDup (saved w)) as Hd.
  rewrite toggle_saved, well_keyed_values
    by apply toggled_well_keyed, of_breakpoints_well_keyed.
  rewrite <- (dict_keys_of_breakpoints (position w) (saved w)).
  unfold toggled. destruct (dict.mem _ _) eqn:Hm.
  - apply dict_mem_spec in Hm. split; [|done].
    intros Hin. by apply dict_pop_absent in Hin.
  - assert (position w ∉ (dict.of_breakpoints (saved w)).*1) as Hn.
    { rewrite <- dict_mem_spec. congruence. }
    split; [done|]. intros _. rewrite dict_set_keys, Hm.
    apply elem_of_app. right. apply list_elem_of_here.
Qed.

(** X5.  [toggle] flips whether a breakpoint sits under the cursor,
    whatever the store holds: afterwards the cursor's key occurs in the
    store exactly when it did not occur before.  In particular every
    record of that key goes, also when the store held several. *)
Theorem toggle_flips_presence w :
  position w ∈ key_of <$> saved (exec toggle w) ↔
  position w ∉ key_of <$> saved w.
Proof. apply toggle_presence. Qed.

Lemma set_cond_key c bp k :
  key_of bp = k → set_cond c bp = mkBreakpoint k.1 k.2 c.
Proof. by intros <-. Qed.

Lemma dict_set_pairs_values k v (bps : list Breakpoint) :
  NoDup (key_of <$> bps) →
  k ∈ key_of <$> bps →
  dict.values (dict.set k v ((λ bp, (key_of bp, bp)) <$> bps)) =
  (λ bp, if decide (key_of bp = k) then v else bp) <$> bps.
Proof.
  unfold dict.values.
  induction bps as [|bp bps IH]; csimpl; intros Hd Hk.
  - by apply elem_of_nil in Hk.
  - apply NoDup_cons in Hd as [Hbp Hd].
    destruct (decide (key_of bp = k)) as [Heq|Hne]; csimpl.
    + f_equal. rewrite <- Heq in *. clear IH Hk.
      induction bps as [|b bps IH]; csimpl; [done|].
      apply not_elem_of_cons in Hbp as [Hne Hbp].
      apply NoDup_cons in Hd as [_ Hd].
      rewrite decide_False by done. by rewrite <- IH.
    + apply elem_of_cons in Hk as [Hk|Hk]; [congruence|].
      by rewrite IH.
Qed.

(** X6.  On a store with pairwise distinct keys and a breakpoint under the
    cursor, [edit] offers that breakpoint's condition at the prompt (the
    empty text when it has none) and then changes nothing but the
    condition of that breakpoint, which becomes the user's answer: the
    breakpoints keep their order, and the others their conditions. *)
Theorem edit_sets_condition_in_place w :
  NoDup (key_of <$> saved w) →
  position w ∈ key_of <$> saved w →
  saved (exec edit w) = reconditioned (position w) (answer w) <$> saved w ∧
  ∃ bp,
    bp ∈ saved w ∧ key_of bp = position w ∧
    EvInput "New Condition: " (old_cond bp) (answer w) ∈ trace (exec edit w).
Proof.
  intros Hd Hk.
  pose proof (of_breakpoints_well_keyed (saved w)) as Hwk.
  assert (ensured (position w) (dict.of_breakpoints (saved w)) =
          dict.of_breakpoints (saved w)) as He.
  { unfold ensured.
    assert (dict.mem (position w) (dict.of_breakpoints (saved w)) = true)
      as -> by (by apply dict_mem_spec, dict_keys_of_breakpoints).
    done. }
  split.
  - rewrite edit_saved. unfold edited. rewrite He.
    rewrite of_breakpoints_distinct at 2 by done.
    rewrite dict_set_pairs_values by done.
    apply list_fmap_ext. intros _ bp _. unfold reconditioned.
    destruct (decide _) as [Hbp|]; [|done].
    rewrite (set_cond_key _ bp (position w)) by done.
    apply set_cond_key. by apply edited_breakpoint_key.
  - exists (edited_breakpoint (position w) (dict.of_breakpoints (saved w))).
    pose proof (ensured_get (position w) (dict.of_breakpoints (saved w))) as Hg.
    rewrite He, of_breakpoints_get in Hg.
    apply last_Some_elem_of, list_elem_of_filter in Hg as [Hkey Hin].
    split_and!; [done | done |].
    destruct (edit_frame w) as (sg & evs & -> & _). cbn.
    apply elem_of_app. right. apply list_elem_of_further.
    unfold prompt_events. cbn.
    do 3 apply list_elem_of_further. apply list_elem_of_here.
Qed.

(** The cursor on the breakpoint with the condition [x>0], the user
    emptying the prompt. *)
Lemma edit_sets_condition_in_place_witness :
  saved (exec edit silent_world) =
    [mkBreakpoint "/a.py" 10 None; mkBreakpoint "/a.py" 20 (Some "")] ∧
  EvInput "New Condition: " "x>0" "" ∈ trace (exec edit silent_world).
Proof.
  destruct (edit_sets_condition_in_place silent_world)
    as (Hs & bp & Hin & Hkey & Hev).
  - apply (bool_decide_unpack _). by vm_compute.
  - apply (bool_decide_unpack _). by vm_compute.
  - split; [rewrite Hs; by vm_compute|].
    assert (bp = mkBreakpoint "/a.py" 20 (Some "x>0")) as ->; [|done].
    vm_compute in Hin. vm_compute in Hkey.
    apply elem_of_cons in Hin as [->|Hin]; [done|].
    by apply list_elem_of_singleton in Hin.
Defined.

Lemma edit_saved_by_key w :
  filter (λ bp, key_of bp = position w) (saved (exec edit w)) =
    [mkBreakpoint (position w).1 (position w).2 (Some (answer w))] ∧
  (∀ k, k ≠ position w →
     filter (λ bp, key_of bp = k) (saved (exec edit w)) =
     option_list (last (filter (λ bp, key_of bp = k) (saved w)))).
Proof.
  pose proof (of_breakpoints_NoDup (saved w)) as Hd.
  pose proof (of_breakpoints_well_keyed (saved w)) as Hwk.
  rewrite edit_saved. split.
  - rewrite dict_values_filter
      by (by apply edited_NoDup || by apply edited_well_keyed).
    unfold edited. rewrite dict_get_set_eq.
    rewrite (set_cond_key _ _ (position w)); [done|].
    by apply edited_breakpoint_key.
  - intros k Hk.
    rewrite dict_values_filter
      by (by apply edited_NoDup || by apply edited_well_keyed).
    f_equal. rewrite <- of_breakpoints_get. unfold edited.
    rewrite dict_get_set_ne by done. unfold ensured.
    destruct (negb _); [|done]. by apply dict_get_set_ne.
Qed.

(** X7.  Whatever the store holds, after [edit] it has exactly one
    breakpoint under the cursor, and its condition is the user's answer,
    a string, never [None]; a key other than the cursor's keeps the
    breakpoint that counted for it before. *)
Theorem edit_leaves_one_at_cursor w :
  filter (λ bp, key_of bp = position w) (saved (exec edit w)) =
    [mkBreakpoint (position w).1 (position w).2 (Some (answer w))] ∧
  (∀ k, k ≠ position w →
     filter (λ bp, key_of bp = k) (saved (exec edit w)) =
     option_list (last (filter (λ bp, key_of bp = k) (saved w)))).
Proof. apply edit_saved_by_key. Qed.

(** X8.  When [g:pudb_priority] is not defined, [update] removes the signs
    of the group and then fails at the first breakpoint: the [KeyError]
    of the lookup is not a Vim error, so the handler of the loop does not
    catch it, and no sign is placed.  Only with an empty store does
    [update] return. *)
Theorem update_undefined_priority g w :
  pudb_sign_group (vim w) = Some g →
  pudb_priority (vim w) = None →
  (saved w = [] → outcome update w = Return tt) ∧
  (saved w ≠ [] → outcome update w = Raise KeyError) ∧
  signs (vim (exec update w)) =
    filter (λ s, sign_group s ≠ g) (signs (vim w)) ∧
  trace (exec update w) = trace w ++ [EvSignUnplace g; EvLoad].
Proof.
  intros Hg Hp.
  assert (update w =
          (match saved w with [] => Return tt | _ => Raise KeyError end,
           mkWorld (store w)
             (set_signs (filter (λ s, sign_group s ≠ g) (signs (vim w)))
                (vim w))
             (trace w ++ [EvSignUnplace g; EvLoad]))) as Hrun.
  { unfold update. unfold_monad. unfold vim_command_sign_unplace.
    rewrite Hg. rewrite breakpoints_run.
    unfold saved, log, with_signs. cbn [store vim trace].
    rewrite <- app_assoc. destruct (store w) as [|r recs]; [done|].
    cbn [fmap list_fmap for_each]. unfold_monad. unfold place_sign at 1.
    unfold_monad. unfold vim_vars_pudb_priority. cbn. by rewrite Hp. }
  unfold outcome, exec. rewrite Hrun. cbn.
  split_and!; [by intros -> | | done | done].
  by destruct (saved w).
Qed.

Lemma update_undefined_priority_witness :
  outcome update no_priority_world = Raise KeyError ∧
  signs (vim (exec update no_priority_world)) = [].
Proof.
  destruct (update_undefined_priority "pudb_sign_group" no_priority_world)
    as (_ & Hfail & Hsigns & _); [done | done |].
  split; [by apply Hfail | by rewrite Hsigns].
Defined.

(** X9.  [toggle], [edit] and [clearAll] save before they refresh the
    signs.  So when [g:pudb_sign_group] is not defined each of them ends
    with a Vim error, but only after the store has been rewritten: the
    save is the last thing in the trace, and no sign has been touched. *)
Theorem mutations_persist_despite_failed_update w :
  pudb_sign_group (vim w) = None →
  (outcome toggle w = Raise vim_error ∧
   trace (exec toggle w) = trace w ++ [EvLoad; EvSave (store (exec toggle w))] ∧
   signs (vim (exec toggle w)) = signs (vim w)) ∧
  (outcome edit w = Raise vim_error ∧
   last (trace (exec edit w)) = Some (EvSave (store (exec edit w))) ∧
   signs (vim (exec edit w)) = signs (vim w)) ∧
  (outcome clearAll w = Raise vim_error ∧
   store (exec clearAll w) = [] ∧
   trace (exec clearAll w) = trace w ++ [EvSave []] ∧
   signs (vim (exec clearAll w)) = signs (vim w)).
Proof.
  intros Hg. split_and!.
  - unfold outcome, toggle. unfold_monad.
    rewrite breakpoint_dict_run, current_position_run.
    unfold save_breakpoints. by rewrite update_no_group.
  - unfold exec, toggle. unfold_monad.
    rewrite breakpoint_dict_run, current_position_run.
    unfold save_breakpoints. rewrite update_no_group by done.
    unfold log, with_store. cbn. by rewrite <- app_assoc.
  - unfold exec, toggle. unfold_monad.
    rewrite breakpoint_dict_run, current_position_run.
    unfold save_breakpoints. by rewrite update_no_group.
  - unfold outcome, edit. unfold_monad.
    rewrite edit_lookup_run, edit_prompt_run.
    unfold save_breakpoints. by rewrite update_no_group.
  - unfold exec, edit. unfold_monad.
    rewrite edit_lookup_run, edit_prompt_run.
    unfold save_breakpoints. rewrite update_no_group by done.
    unfold log, with_store. cbn [snd store trace]. apply last_snoc.
  - unfold exec, edit. unfold_monad.
    rewrite edit_lookup_run, edit_prompt_run.
    unfold save_breakpoints. by rewrite update_no_group.
  - unfold outcome, clearAll. unfold_monad. unfold save_breakpoints.
    by rewrite update_no_group.
  - unfold exec, clearAll. unfold_monad. unfold save_breakpoints.
    by rewrite update_no_group.
  - unfold exec, clearAll. unfold_monad. unfold save_breakpoints.
    by rewrite update_no_group.
  - unfold exec, clearAll. unfold_monad. unfold save_breakpoints.
    by rewrite update_no_group.
Qed.

(** The cursor on the breakpoint of line 10, no sign group: [toggle] fails
    and the breakpoint is gone from the store all the same. *)
Lemma mutations_persist_despite_failed_update_witness :
  outcome toggle unconfigured_world = Raise vim_error ∧
  trace (exec toggle unconfigured_world) =
    [EvLoad; EvSave [("/a.py", 20, Some "x>0")]] ∧
  store (exec toggle unconfigured_world) = [("/a.py", 20, Some "x>0")].
Proof.
  destruct (mutations_persist_despite_failed_update unconfigured_world)
    as ((Hout & Htrace & _) & _ & _); [done|].
  split_and!; [done | | by vm_compute].
  rewrite Htrace. by vm_compute.
Defined.

(** X10.  The functions that begin with [update] do nothing at all when
    [g:pudb_sign_group] is not defined: [update], [list_breakpoints] and
    [populateList] fail with a Vim error in the world they started from,
    no message echoed and no list handed over; [clearLineCache] fails too,
    after the cache has been checked. *)
Theorem listings_need_sign_group w :
  pudb_sign_group (vim w) = None →
  update w = (Raise vim_error, w) ∧
  list_breakpoints w = (Raise vim_error, w) ∧
  (∀ list_command, populateList list_command w = (Raise vim_error, w)) ∧
  clearLineCache w =
    (Raise vim_error, log (EvCheckcache (current_file (vim w))) w).
Proof.
  intros Hg. split_and!.
  - by apply update_no_group.
  - unfold list_breakpoints. unfold_monad. by rewrite update_no_group.
  - intros c. unfold populateList. unfold_monad. by rewrite update_no_group.
  - unfold clearLineCache. unfold_monad. unfold vim_eval_expand, checkcache.
    by rewrite update_no_group.
Qed.

Lemma listings_need_sign_group_witness :
  quickfixList unconfigured_world = (Raise vim_error, unconfigured_world) ∧
  list_breakpoints unconfigured_world = (Raise vim_error, unconfigured_world).
Proof.
  destruct (listings_need_sign_group unconfigured_world)
    as (_ & Hlist & Hpop & _); [done|].
  split; [apply Hpop | apply Hlist].
Defined.

(** X11.  With the sign group and the priority configured,
    [list_breakpoints] refreshes the signs as [update] does, then echoes
    the header and after it one message per saved breakpoint, its display
    string, in the order of the store; the store stays as it was. *)
Theorem list_breakpoints_messages g p w :
  pudb_sign_group (vim w) = Some g →
  pudb_priority (vim w) = Some p →
  outcome list_breakpoints w = Return tt ∧
  store (exec list_breakpoints w) = store w ∧
  signs (vim (exec list_breakpoints w)) = signs (vim (exec update w)) ∧
  trace (exec list_breakpoints w) =
    trace (exec update w) ++
    EvEchomsg "Listing all pudb breakpoints:" :: EvLoad ::
    (EvEchomsg <$> (breakpoint_string <$> saved w)).
Proof.
  intros Hg Hp.
  assert (list_breakpoints w =
          (Return tt,
           mkWorld (store w) (vim (exec update w))
             (trace (exec update w) ++
              EvEchomsg "Listing all pudb breakpoints:" :: EvLoad ::
              (EvEchomsg <$> (breakpoint_string <$> saved w))))) as Hrun.
  { unfold exec, list_breakpoints. unfold_monad.
    rewrite (update_run g p) by done.
    unfold vim_command_echomsg at 1. unfold breakpoint_strings. unfold_monad.
    rewrite breakpoints_run. unfold log, saved. cbn [store vim trace].
    rewrite echo_all_run. cbn. by rewrite <- !app_assoc. }
  unfold outcome, exec at 1 2 4. by rewrite Hrun.
Qed.

Lemma list_breakpoints_messages_witness :
  trace (exec list_breakpoints sample_world) =
    [EvSignUnplace "pudb_sign_group"; EvLoad;
     EvSignPlace "pudb_sign_group" "/a.py" 10 100 true;
     EvSignPlace "pudb_sign_group" "/a.py" 20 100 true;
     EvEchomsg "Listing all pudb breakpoints:"; EvLoad;
     EvEchomsg "/a.py:10: "; EvEchomsg "/a.py:20:x>0"].
Proof.
  destruct (list_breakpoints_messages "pudb_sign_group" 100 sample_world)
    as (_ & _ & _ & Htrace); [done | done |].
  rewrite Htrace. by vm_compute.
Defined.

(** X12.  [quickfixList] and [locationList] do the same work: from any
    world either both fail, with the same exception and in the same
    world, or both return after handing the same list of entries to their
    command, [cgetexpr] for the one and [lgetexpr] for the other, the
    worlds differing in that last trace entry only. *)
Theorem quickfix_and_location_lists_agree w :
  (∃ qflist w',
     quickfixList w = (Return tt, log (EvListCommand "cgetexpr" qflist) w') ∧
     locationList w = (Return tt, log (EvListCommand "lgetexpr" qflist) w')) ∨
  (∃ e w',
     quickfixList w = (Raise e, w') ∧ locationList w = (Raise e, w')).
Proof.
  unfold quickfixList, locationList, populateList. unfold_monad.
  destruct (update w) as [[[]|e] w1].
  - left. rewrite breakpoints_run. rewrite populate_loop_run.
    unfold vim_command_list. eauto.
  - right. eauto.
Qed.

Lemma only_signs_differ_update w : only_signs_differ w (exec update w).
Proof. by destruct (update_frame w) as (sg & evs & -> & _). Qed.

Lemma update_cases w :
  ∃ r w', update w = (r, w') ∧ only_signs_differ w w'.
Proof.
  pose proof (only_signs_differ_update w) as H. unfold exec in H.
  destruct (update w) as [r w']. eauto.
Qed.

(** X13.  [update], [list_breakpoints], [populateList] and
    [clearLineCache] only read the store: whether they return or fail,
    they leave the store as it was, and of the editor they change nothing
    but the signs (the cursor, the buffers and the configuration stay).
    [clearLineCache] begins by checking the cache of the current file. *)
Theorem read_only_operations_keep_store w list_command :
  only_signs_differ w (exec update w) ∧
  only_signs_differ w (exec list_breakpoints w) ∧
  only_signs_differ w (exec (populateList list_command) w) ∧
  only_signs_differ w (exec clearLineCache w) ∧
  ∃ evs,
    trace (exec clearLineCache w) =
    trace w ++ EvCheckcache (current_file (vim w)) :: evs.
Proof.
  split_and!.
  - apply only_signs_differ_update.
  - unfold exec, list_breakpoints. unfold_monad.
    destruct (update_cases w) as ([[]|e] & w1 & -> & Hw); [|done].
    unfold vim_command_echomsg at 1. unfold breakpoint_strings. unfold_monad.
    rewrite breakpoints_run. unfold log. cbn [store vim trace].
    by rewrite echo_all_run.
  - unfold exec, populateList. unfold_monad.
    destruct (update_cases w) as ([[]|e] & w1 & -> & Hw); [|done].
    rewrite breakpoints_run, populate_loop_run. done.
  - unfold exec, clearLineCache. unfold_monad.
    unfold vim_eval_expand, checkcache.
    destruct (update_cases (log (EvCheckcache (current_file (vim w))) w))
      as (r & w1 & -> & Hw).
    by destruct r.
  - unfold exec, clearLineCache. unfold_monad.
    unfold vim_eval_expand, checkcache.
    destruct (update_frame (log (EvCheckcache (current_file (vim w))) w))
      as (sg & evs & Hu & _).
    unfold exec in Hu.
    destruct (update _) as [r w1]. cbn in Hu. subst w1.
    exists evs. destruct r; cbn; by rewrite <- app_assoc.
Qed.

Lemma filter_own_signs g p (bps : list Breakpoint) :
  filter (λ s, sign_group s ≠ g) (sign_of g p <$> bps) = [].
Proof.
  induction bps as [|bp bps IH]; csimpl; [done|].
  rewrite filter_cons_False; [done|]. cbn. intros H; by apply H.
Qed.

Lemma filter_other_signs_twice g (sg : list Sign) :
  filter (λ s, sign_group s ≠ g) (filter (λ s, sign_group s ≠ g) sg) =
  filter (λ s, sign_group s ≠ g) sg.
Proof.
  induction sg as [|s sg IH]; [done|].
  rewrite filter_cons. destruct (decide _); [|done].
  by rewrite filter_cons_True, IH.
Qed.

(** X14.  With the sign group and the priority configured, [update] can
    be repeated: a second [update] leaves the very signs that the first
    left, so the signs of the breakpoints do not pile up; and [update]
    keeps every sign of another group. *)
Theorem update_idempotent g p w :
  pudb_sign_group (vim w) = Some g →
  pudb_priority (vim w) = Some p →
  signs (vim (exec update (exec update w))) = signs (vim (exec update w)) ∧
  filter (λ s, sign_group s ≠ g) (signs (vim (exec update w))) =
    filter (λ s, sign_group s ≠ g) (signs (vim w)).
Proof.
  intros Hg Hp.
  assert (signs (vim (exec update w)) =
          filter (λ s, sign_group s ≠ g) (signs (vim w)) ++
          (sign_of g p <$> filter (has_buffer (vim w)) (saved w))) as H1.
  { unfold exec. by rewrite (update_run g p). }
  assert (filter (λ s, sign_group s ≠ g) (signs (vim (exec update w))) =
          filter (λ s, sign_group s ≠ g) (signs (vim w))) as H2.
  { rewrite H1, filter_app, filter_own_signs, app_nil_r.
    apply filter_other_signs_twice. }
  split; [|done]. rewrite H1.
  destruct (update_frame w) as (sg & evs & Hw & _).
  unfold exec at 1. rewrite (update_run g p) by (by rewrite Hw).
  cbn [snd vim signs set_signs]. rewrite H2. by rewrite Hw.
Qed.

(** A sign of an earlier round and three breakpoints, one of them without
    buffer: after one [update] and after two the signs are the two that
    could be placed. *)
Lemma update_idempotent_witness :
  signs (vim (exec update (exec update listing_world))) =
    [mkSign "pudb_sign_group" "PudbBreakPoint" "/b.py" 3 100;
     mkSign "pudb_sign_group" "PudbBreakPoint" "/b.py" 4 100].
Proof.
  destruct (update_idempotent "pudb_sign_group" 100 listing_world)
    as (Htwice & _); [done | done |].
  rewrite Htwice. by vm_compute.
Defined.

(** X15.  When [g:pudb_sign_group] is defined, [clearAll] returns
    normally, also without [g:pudb_priority]: it empties the store,
    removes every sign of the group and places none, so no sign of a
    breakpoint is left. *)
Theorem clearAll_removes_signs g w :
  pudb_sign_group (vim w) = Some g →
  clearAll w =
    (Return tt,
     mkWorld []
       (set_signs (filter (λ s, sign_group s ≠ g) (signs (vim w))) (vim w))
       (trace w ++ [EvSave []; EvSignUnplace g; EvLoad])) ∧
  (∀ s, s ∈ signs (vim (exec clearAll w)) → sign_group s ≠ g).
Proof.
  intros Hg.
  assert (clearAll w =
    (Return tt,
     mkWorld []
       (set_signs (filter (λ s, sign_group s ≠ g) (signs (vim w))) (vim w))
       (trace w ++ [EvSave []; EvSignUnplace g; EvLoad]))) as Hrun.
  { unfold clearAll, update. unfold_monad.
    unfold save_breakpoints, vim_command_sign_unplace. cbn. rewrite Hg.
    rewrite breakpoints_run. unfold log, with_signs, with_store. cbn.
    by rewrite <- !app_assoc. }
  split; [done|]. unfold exec. rewrite Hrun. cbn.
  intros s Hs. by apply list_elem_of_filter in Hs as [? _].
Qed.

Lemma clearAll_removes_signs_witness :
  signs (vim no_priority_world) =
    [mkSign "pudb_sign_group" "PudbBreakPoint" "/a.py" 1 100] ∧
  outcome clearAll no_priority_world = Return tt ∧
  signs (vim (exec clearAll no_priority_world)) = [] ∧
  store (exec clearAll no_priority_world) = [].
Proof.
  destruct (clearAll_removes_signs "pudb_sign_group" no_priority_world)
    as (Hrun & _); [done|].
  unfold outcome, exec. rewrite Hrun. by split_and!.
Defined.

Lemma edit_position w : position (exec edit w) = position w.
Proof. by destruct (edit_frame w) as (sg & evs & -> & _). Qed.

Lemma clearAll_frame w :
  store (exec clearAll w) = [] ∧ position (exec clearAll w) = position w.
Proof.
  destruct (then_update_frame (save_breakpoints []) w) as (sg & evs & Hc & _).
  unfold clearAll. by rewrite Hc.
Qed.

(** X16.  What the user answered at one [edit] is what the next [edit] at
    the same cursor position offers for editing, whatever the store held
    at first: the condition goes through the store and comes back. *)
Theorem edit_offers_last_answer w :
  EvInput "New Condition: " (answer w) (answer (exec edit w)) ∈
  trace (exec edit (exec edit w)).
Proof.
  destruct (edit_saved_by_key w) as [Hat _].
  assert (edited_breakpoint (position w)
            (dict.of_breakpoints (saved (exec edit w))) =
          mkBreakpoint (position w).1 (position w).2 (Some (answer w))) as Hb.
  { unfold edited_breakpoint. by rewrite of_breakpoints_get, Hat. }
  destruct (edit_frame (exec edit w)) as (sg & evs & -> & _).
  rewrite edit_position, Hb. cbn [trace old_cond cond].
  apply elem_of_app. right. apply list_elem_of_further.
  unfold prompt_events. cbn.
  do 3 apply list_elem_of_further. apply list_elem_of_here.
Qed.

(** X17.  A [toggle] that follows an [edit] at the same cursor position
    removes the breakpoint that the [edit] has set, whatever the store
    held at first: no record of the cursor's key is left. *)
Theorem toggle_after_edit_removes w :
  filter (λ bp, key_of bp = position w) (saved (exec toggle (exec edit w))) =
  [].
Proof.
  destruct (filter _ _) as [|b bs] eqn:Hf; [done|]. exfalso.
  assert (b ∈ filter (λ bp, key_of bp = position w)
                (saved (exec toggle (exec edit w)))) as Hb
    by (rewrite Hf; apply list_elem_of_here).
  apply list_elem_of_filter in Hb as [Hkey Hb].
  assert (position (exec edit w) ∈
          key_of <$> saved (exec toggle (exec edit w))) as Hin.
  { rewrite edit_position, <- Hkey. by apply list_elem_of_fmap_2. }
  apply toggle_presence in Hin. apply Hin. rewrite edit_position.
  destruct (edit_saved_by_key w) as [Hat _].
  apply (list_elem_of_fmap_2' key_of _
           (mkBreakpoint (position w).1 (position w).2 (Some (answer w))));
    [|by destruct (position w)].
  assert (mkBreakpoint (position w).1 (position w).2 (Some (answer w)) ∈
          filter (λ bp, key_of bp = position w) (saved (exec edit w))) as Hf'
    by (rewrite Hat; apply list_elem_of_here).
  by apply list_elem_of_filter in Hf' as [_ ?].
Qed.

(** X18.  After [clearAll], a [toggle] leaves exactly one record in the
    store, the cursor's file and line without condition, whatever the
    store held before. *)
Theorem toggle_after_clearAll w :
  store (exec toggle (exec clearAll w)) =
  [((position w).1, (position w).2, None)].
Proof.
  destruct (clearAll_frame w) as [Hst Hpos].
  rewrite <- (records_saved (exec toggle (exec clearAll w))).
  rewrite toggle_saved_absent.
  - unfold saved. by rewrite Hst, Hpos.
  - unfold saved. rewrite Hst. constructor.
  - unfold saved. rewrite Hst. apply not_elem_of_nil.
Qed.
